(** * Miniature block ciphers and modular exponentiation: a shallow embedding

    The development embeds the C++ programs of the repository:

    - [01_des/des.cpp]    Simplified DES (module [SDES]);
    - [02_aes/AES.cpp]    Simplified AES (module [SAES]);
    - [04.2_diffie_hellman/diffie_hellman.cpp]  the [power] routine and the
      XOR stream of the key exchange demo (module [DH]);
    - [03_rsa/rsa.cpp]    the greatest common divisor (module [RSA]);
    - [04.1_ecc_diiffie_hellman/main.cpp]  the points of an elliptic curve
      (module [ECC]).

    Conventions.  A C++ [int] and a [long long] are values of type [Z], the
    unsigned [uint8_t] and [uint16_t] are values of type [N]; where the
    source narrows a value to a fixed width the wrap-around is written out.
    A [vector<int>] is a [list Z], a [vector<uint8_t>] a [list N].  Reading
    a vector or an array outside its bounds is undefined behaviour in C++
    and raises nothing; in the S-DES embedding such a read makes the
    computation [None]. *)

From stdpp Require Import base option list numbers strings pretty.
From Stdlib Require Import NArith ZArith Lia Ascii.
From Equations Require Import Equations.

Local Open Scope Z_scope.

(** ** Simplified DES ([01_des/des.cpp]) *)

Module SDES.

(** Permutation tables and S-boxes, as the global arrays of the source. *)
Definition P10 : list Z := [3; 5; 2; 7; 4; 10; 1; 9; 8; 6].
Definition P8 : list Z := [6; 3; 7; 4; 8; 5; 10; 9].
Definition P4 : list Z := [2; 4; 3; 1].
Definition IP : list Z := [2; 6; 3; 1; 4; 8; 5; 7].
Definition IP_INV : list Z := [4; 1; 3; 5; 7; 2; 8; 6].
Definition E_P : list Z := [4; 1; 2; 3; 2; 3; 4; 1].

Definition S0 : list (list Z) :=
  [ [1; 0; 3; 2];
    [3; 2; 1; 0];
    [0; 2; 1; 3];
    [3; 1; 3; 2] ].

Definition S1 : list (list Z) :=
  [ [0; 1; 2; 3];
    [2; 0; 1; 3];
    [3; 0; 1; 0];
    [2; 1; 0; 3] ].

(** [v[i]] for an [int] index: defined only inside the bounds. *)
Definition idx {A} (v : list A) (i : Z) : option A :=
  if bool_decide (0 <= i) then v !! Z.to_nat i else None.

(** [result[i] = arr[perm[i] - 1]] for [i = 0 .. size-1]. *)
Definition permute (arr : list Z) (perm : list Z) (size : nat) : option (list Z) :=
  mapM (fun i : nat => p ← perm !! i; idx arr (p - 1)) (seq 0 size).

(** [shifted[i] = bits[(i + shifts) % bits.size()]]; the sum is converted
    to the 64-bit unsigned [size_t] before the remainder is taken. *)
Definition leftShift (bits : list Z) (shifts : Z) : option (list Z) :=
  mapM (fun i : nat =>
          idx bits (((Z.of_nat i + shifts) mod 2 ^ 64) mod Z.of_nat (length bits)))
       (seq 0 (length bits)).

(** [res[i] = a[i] ^ b[i]] for [i = 0 .. a.size()-1]. *)
Definition XOR (a b : list Z) : option (list Z) :=
  mapM (fun i : nat => x ← a !! i; y ← b !! i; Some (Z.lxor x y))
       (seq 0 (length a)).

(** The loop of [intToBin], run from [i = size-1] down to [0]:
    [bits[i] = val & 1; val >>= 1]. *)
Fixpoint intToBin_loop (n : nat) (val : Z) (bits : list Z) : list Z :=
  match n with
  | O => bits
  | S n' => intToBin_loop n' (Z.shiftr val 1) (Z.land val 1 :: bits)
  end.

Definition intToBin (val : Z) (size : nat) : list Z :=
  intToBin_loop size val [].

Definition sBox (input : list Z) (sMatrix : list (list Z)) : option (list Z) :=
  i0 ← input !! 0%nat;
  i3 ← input !! 3%nat;
  let row := Z.lor (Z.shiftl i0 1) i3 in
  i1 ← input !! 1%nat;
  i2 ← input !! 2%nat;
  let col := Z.lor (Z.shiftl i1 1) i2 in
  r ← idx sMatrix row;
  val ← idx r col;
  Some (intToBin val 2).

(** Key generation: produces [(K1, K2)]. *)
Definition generateKeys (key : list Z) : option (list Z * list Z) :=
  p10 ← permute key P10 10;
  let left := take 5 p10 in
  let right := drop 5 p10 in
  (* LS-1 *)
  left ← leftShift left 1;
  right ← leftShift right 1;
  let combined := left ++ right in
  k1 ← permute combined P8 8;
  (* LS-2 *)
  left ← leftShift left 2;
  right ← leftShift right 2;
  let combined := left ++ right in
  k2 ← permute combined P8 8;
  Some (k1, k2).

(** The F-function together with the Feistel XOR: returns the new left
    half followed by the unchanged right half. *)
Definition functionF (left right key : list Z) : option (list Z) :=
  temp ← permute right E_P 8;
  temp ← XOR temp key;
  let left4 := take 4 temp in
  let right4 := drop 4 temp in
  s0_out ← sBox left4 S0;
  s1_out ← sBox right4 S1;
  let combined := s0_out ++ s1_out in
  combined ← permute combined P4 4;
  result ← XOR left combined;
  Some (result ++ right).

Definition sdes (input key : list Z) (decrypt : bool) : option (list Z) :=
  '(k1, k2) ← generateKeys key;
  let '(k1, k2) := if decrypt then (k2, k1) else (k1, k2) in
  ip ← permute input IP 8;
  let left := take 4 ip in
  let right := drop 4 ip in
  f1 ← functionF left right k1;
  let swapped_left := drop 4 f1 in
  let swapped_right := take 4 f1 in
  f2 ← functionF swapped_left swapped_right k2;
  permute f2 IP_INV 8.

(** Input parsing helper of the interactive menu: a string of the wrong
    length, or with a character other than 0 and 1, yields the empty
    vector (after printing a message). *)
Definition is_bit_char (c : Ascii.ascii) : bool :=
  bool_decide (c = "0"%char) || bool_decide (c = "1"%char).

Definition parseBits (s : string) (expected : nat) : list Z :=
  if bool_decide (String.length s ≠ expected)
     || negb (forallb is_bit_char (String.list_ascii_of_string s))
  then []
  else map (fun c : Ascii.ascii => Z.of_nat (Ascii.nat_of_ascii c) - Z.of_nat (Ascii.nat_of_ascii "0"%char))
           (String.list_ascii_of_string s).

(** [int] is a 32-bit signed integer; [wrap32] brings the exact value of
    [val << 1] back into its range. *)
Definition wrap32 (x : Z) : Z := (x + 2 ^ 31) mod 2 ^ 32 - 2 ^ 31.

(** [val = (val << 1) | bits[i]] for [i = 0 .. bits.size()-1]. *)
Definition binToInt (bits : list Z) : Z :=
  fold_left (fun val b : Z => Z.lor (wrap32 (Z.shiftl val 1)) b) bits 0.

(** What [printBits] writes to the standard output: each entry in decimal,
    then a line feed. *)
Definition newline : string := String (Ascii.ascii_of_nat 10) EmptyString.

Definition printBits (bits : list Z) : string :=
  fold_right (fun (b : Z) (out : string) => pretty b +:+ out) newline bits.

End SDES.

(** ** Simplified AES ([02_aes/AES.cpp]) *)

Module SAES.

Local Open Scope N_scope.

(** The values of this program are unsigned ([uint8_t], [uint16_t]) and the
    [int] intermediates they are promoted to never become negative, so they
    are numbers of type [N]; [u8] and [u16] are the conversions to the two
    unsigned types. *)
Definition u8 (x : N) : N := x mod 256.
Definition u16 (x : N) : N := x mod 65536.

Definition sBox : list N :=
  [ 0x9; 0x4; 0xA; 0xB;
    0xD; 0x1; 0x8; 0x5;
    0x6; 0x2; 0x0; 0x3;
    0xC; 0xE; 0xF; 0x7 ].

Definition sBoxI : list N :=
  [ 0xA; 0x5; 0x9; 0xB;
    0x1; 0x7; 0x8; 0xF;
    0x6; 0x0; 0x2; 0x3;
    0xC; 0x4; 0xD; 0xE ].

(** [v[i]].  Every vector of the program has four entries and every table
    sixteen; the lemmas of the second part show that the reads made on
    states of four nibbles stay inside these bounds, where the value
    given here to a read outside them plays no role. *)
Definition at_ (v : list N) (i : N) : N := nth (N.to_nat i) v 0.

Record SimplifiedAES := mkSimplifiedAES {
  preRoundKey : list N;
  round1Key : list N;
  round2Key : list N
}.

Definition subWord (word : N) : N :=
  u8 (N.lor (N.shiftl (at_ sBox (N.shiftr word 4)) 4) (at_ sBox (N.land word 0x0F))).

Definition rotWord (word : N) : N :=
  u8 (N.lor (N.shiftl (N.land word 0x0F) 4) (N.shiftr (N.land word 0xF0) 4)).

Definition intToState (n : N) : list N :=
  [ u8 (N.land (N.shiftr n 12) 0xF);
    u8 (N.land (N.shiftr n 4) 0xF);
    u8 (N.land (N.shiftr n 8) 0xF);
    u8 (N.land n 0xF) ].

Definition stateToInt (m : list N) : N :=
  u16 (N.shiftl (at_ m 0) 12 + N.shiftl (at_ m 2) 8 + N.shiftl (at_ m 1) 4 + at_ m 3).

Definition keyExpansion (key : N) : list N * list N * list N :=
  let Rcon1 := 0x80 in
  let Rcon2 := 0x30 in
  let w0 := u8 (N.shiftr (N.land key 0xFF00) 8) in
  let w1 := u8 (N.land key 0x00FF) in
  let w2 := u8 (N.lxor w0 (N.lxor (subWord (rotWord w1)) Rcon1)) in
  let w3 := u8 (N.lxor w2 w1) in
  let w4 := u8 (N.lxor w2 (N.lxor (subWord (rotWord w3)) Rcon2)) in
  let w5 := u8 (N.lxor w4 w3) in
  let k0 := intToState (u16 (N.shiftl w0 8 + w1)) in
  let k1 := intToState (u16 (N.shiftl w2 8 + w3)) in
  let k2 := intToState (u16 (N.shiftl w4 8 + w5)) in
  (k0, k1, k2).

(** The constructor: the three round keys are derived once from the key. *)
Definition new (key : N) : SimplifiedAES :=
  let '(k0, k1, k2) := keyExpansion key in
  {| preRoundKey := k0; round1Key := k1; round2Key := k2 |}.

(** The [while (b)] loop of [gfMult]; it ends because [b >>= 1] makes a
    non-zero [b] smaller.  The reduction constant [0b10011] is [0x13]. *)
Equations gfMult_loop (a b product : N) : N by wf (N.to_nat b) lt :=
  gfMult_loop a b product with N.eq_dec b 0 := {
    | left _ => product
    | right Hb =>
        let product := if N.land b 1 =? 0 then product else u8 (N.lxor product a) in
        let a := u8 (N.shiftl a 1) in
        let a := if N.land a (N.shiftl 1 4) =? 0 then a else u8 (N.lxor a 0x13) in
        let b := u8 (N.shiftr b 1) in
        gfMult_loop a b product }.
Next Obligation.
  unfold u8. pose proof (N.Div0.mod_le (N.shiftr b0 1) 256) as Hle.
  rewrite N.shiftr_div_pow2 in *. change (2 ^ 1) with 2 in *.
  assert (b0 / 2 < b0) by (apply N.div_lt; lia). lia.
Qed.

Definition gfMult (a b : N) : N :=
  let product := 0 in
  let a := u8 (N.land a 0x0F) in
  let b := u8 (N.land b 0x0F) in
  gfMult_loop a b product.

Definition addRoundKey (s1 s2 : list N) : list N :=
  map (fun i : N => u8 (N.lxor (at_ s1 i) (at_ s2 i))) [0; 1; 2; 3].

Definition subNibbles (sbox : list N) (state : list N) : list N :=
  map (fun i : N => at_ sbox (at_ state i)) [0; 1; 2; 3].

Definition shiftRows (state : list N) : list N :=
  [at_ state 0; at_ state 1; at_ state 3; at_ state 2].

Definition mixColumns (state : list N) : list N :=
  [ u8 (N.lxor (at_ state 0) (gfMult 4 (at_ state 2)));
    u8 (N.lxor (at_ state 1) (gfMult 4 (at_ state 3)));
    u8 (N.lxor (at_ state 2) (gfMult 4 (at_ state 0)));
    u8 (N.lxor (at_ state 3) (gfMult 4 (at_ state 1))) ].

Definition inverseMixColumns (state : list N) : list N :=
  [ u8 (N.lxor (gfMult 9 (at_ state 0)) (gfMult 2 (at_ state 2)));
    u8 (N.lxor (gfMult 9 (at_ state 1)) (gfMult 2 (at_ state 3)));
    u8 (N.lxor (gfMult 9 (at_ state 2)) (gfMult 2 (at_ state 0)));
    u8 (N.lxor (gfMult 9 (at_ state 3)) (gfMult 2 (at_ state 1))) ].

Definition Encrypt (self : SimplifiedAES) (plaintext : N) : N :=
  let state := addRoundKey (preRoundKey self) (intToState plaintext) in
  let state := mixColumns (shiftRows (subNibbles sBox state)) in
  let state := addRoundKey (round1Key self) state in
  let state := shiftRows (subNibbles sBox state) in
  let state := addRoundKey (round2Key self) state in
  stateToInt state.

Definition Decrypt (self : SimplifiedAES) (ciphertext : N) : N :=
  let state := addRoundKey (round2Key self) (intToState ciphertext) in
  let state := subNibbles sBoxI (shiftRows state) in
  let state := inverseMixColumns (addRoundKey (round1Key self) state) in
  let state := subNibbles sBoxI (shiftRows state) in
  let state := addRoundKey (preRoundKey self) state in
  stateToInt state.

End SAES.

(** ** The modular exponentiation of the Diffie-Hellman demo
       ([04.2_diffie_hellman/diffie_hellman.cpp]) *)

Module DH.

(** The type [ll] of the source is [long long], a 64-bit signed integer.
    [wrap] brings the exact value of a product back into its range.  (An
    overflowing signed multiplication is undefined behaviour in C++; the
    embedding gives it the two's complement result, which is what the usual
    compilers produce.)
    [%] on [long long] truncates towards zero: [Z.rem]. *)
Definition LL_MIN : Z := - 2 ^ 63.
Definition LL_MAX : Z := 2 ^ 63 - 1.
Definition wrap (x : Z) : Z := (x + 2 ^ 63) mod 2 ^ 64 - 2 ^ 63.

(** The [while (exp > 0)] loop of [power]. *)
Equations power_loop (result base exp modulus : Z) : Z by wf (Z.to_nat exp) lt :=
  power_loop result base exp modulus with Z_lt_dec 0 exp := {
    | left Hexp =>
        let result :=
          if Z.rem exp 2 =? 1 then Z.rem (wrap (result * base)) modulus else result in
        let exp := Z.shiftr exp 1 in
        let base := Z.rem (wrap (base * base)) modulus in
        power_loop result base exp modulus
    | right _ => result }.
Next Obligation.
  rewrite Z.shiftr_div_pow2 by lia. change (2 ^ 1) with 2.
  assert (0 <= exp0 / 2 < exp0)
    by (split; [apply Z.div_pos | apply Z.div_lt]; lia).
  lia.
Qed.

Definition power (base exp modulus : Z) : Z :=
  let result := 1 in
  let base := Z.rem base modulus in
  power_loop result base exp modulus.

(** A [char] promoted to [long long] (a signed [char], as on the usual
    platforms), and a [long long] narrowed to a [char]. *)
Definition char_to_ll (c : Ascii.ascii) : Z :=
  let n := Z.of_N (Ascii.N_of_ascii c) in
  if n <? 128 then n else n - 256.

Definition ll_to_char (x : Z) : Ascii.ascii :=
  Ascii.ascii_of_N (Z.to_N (x mod 256)).

(** [for (char c : message) result += c ^ key;] *)
Fixpoint encryptDecrypt (message : string) (key : Z) : string :=
  match message with
  | EmptyString => EmptyString
  | String c rest =>
      String (ll_to_char (Z.lxor (char_to_ll c) key)) (encryptDecrypt rest key)
  end.

End DH.

(** ** The greatest common divisor of the RSA demo ([03_rsa/rsa.cpp]) *)

Module RSA.

(** [while (h != 0) { temp = h; h = a % h; a = temp; }]; the remainder of
    [long long] truncates towards zero, and a non-zero [h] gets smaller in
    absolute value. *)
Equations gcd (a h : Z) : Z by wf (Z.abs_nat h) lt :=
  gcd a h with Z.eq_dec h 0 := {
    | left _ => a
    | right Hh =>
        let temp := h in
        let h := Z.rem a h in
        let a := temp in
        gcd a h }.
Next Obligation.
  pose proof (Z.rem_bound_abs a0 h0 Hh). lia.
Qed.

End RSA.

(** ** The points of an elliptic curve
       ([04.1_ecc_diiffie_hellman/main.cpp]) *)

Module ECC.

Record Point := mkPoint { x : Z; y : Z }.

(** The products are computed in [long long] (they start with [1LL]) and
    the two results are stored in an [int]. *)
Definition isPoint (a1 : Point) (a b p : Z) : bool :=
  let y := SDES.wrap32 (Z.rem (DH.wrap (DH.wrap (1 * y a1) * y a1)) p) in
  let x :=
    SDES.wrap32
      (Z.rem
         (DH.wrap
            (DH.wrap
               (Z.rem (DH.wrap (Z.rem (DH.wrap (DH.wrap (1 * x a1) * x a1)) p * x a1)) p
                + Z.rem (DH.wrap (DH.wrap (1 * a) * x a1)) p)
             + b))
         p) in
  x =? y.

(** The lines that [allPoints] writes, as the pairs [(i, j)] in the order
    of the two loops. *)
Definition allPoints (p a b : Z) : list (Z * Z) :=
  i ← Z.of_nat <$> seq 0 (Z.to_nat p);
  j ← Z.of_nat <$> seq 0 (Z.to_nat p);
  if isPoint (mkPoint i j) a b p then [(i, j)] else [].

End ECC.

(** ** Specification-level notions

    The notions below are written from the wording of the specification,
    independently of the code; the theorems of the second part compare the
    code with them. *)

Module Spec.

(** A bit, and a vector of bits. *)
Definition bit (x : Z) : Prop := x = 0 \/ x = 1.
Definition bits (v : list Z) : Prop := Forall bit v.

(** Applying a table of 1-based source positions to a vector:
    [output[i] = input[table[i] - 1]]. *)
Definition select (table : list Z) (input : list Z) : list Z :=
  (fun p : Z => nth (Z.to_nat (p - 1)) input 0) <$> table.

(** The entry of a two-dimensional table at a row and a column. *)
Definition entry (S : list (list Z)) (row col : Z) : option Z :=
  r ← S !! Z.to_nat row; r !! Z.to_nat col.

(** The most-significant-bit-first encoding of a number on two bits. *)
Definition two_bits (v : Z) : list Z := [v / 2; v mod 2].

(** The range of a 32-bit signed integer that is not negative. *)
Definition nonneg_int (v : Z) : Prop := 0 <= v < 2 ^ 31.

(** The largest modulus whose residues have all their products in the
    range of a 64-bit signed integer: [3037000499 ^ 2 < 2 ^ 63]. *)
Definition MAX_MODULUS : Z := 3037000500.

Local Open Scope N_scope.

(** A nibble, and a state of four nibbles. *)
Definition nibble (x : N) : Prop := x < 16.
Definition nibble_state (s : list N) : Prop :=
  length s = 4%nat /\ Forall nibble s.

(** Polynomials over GF(2): a polynomial is the number whose binary digits
    are its coefficients, and the sum of two polynomials is [N.lxor].
    [poly_mul] is the product: [a * 1 = a], [a * (2 b) = 2 (a * b)] and
    [a * (2 b + 1) = a + 2 (a * b)]. *)
Fixpoint poly_mul_pos (a : N) (b : positive) : N :=
  match b with
  | xH => a
  | xO b' => N.double (poly_mul_pos a b')
  | xI b' => N.lxor a (N.double (poly_mul_pos a b'))
  end.

Definition poly_mul (a b : N) : N :=
  match b with
  | N0 => 0
  | Npos b' => poly_mul_pos a b'
  end.

(** Long division by [m]: the coefficients of degree [deg m + n - 1] down
    to [deg m] are cleared in turn by adding a multiple of [m]. *)
Fixpoint poly_reduce (n : nat) (p m : N) : N :=
  match n with
  | O => p
  | S i =>
      let p' := if N.testbit p (N.log2 m + N.of_nat i)
                then N.lxor p (N.shiftl m (N.of_nat i)) else p in
      poly_reduce i p' m
  end.

Definition poly_mod (p m : N) : N :=
  poly_reduce (N.to_nat (N.size p - N.log2 m)) p m.

(** The product of GF(2^4) = GF(2)[x] / (x^4 + x + 1); the reduction
    polynomial is the number [0b10011]. *)
Definition x4_x_1 : N := 0x13.
Definition gf16_mul (a b : N) : N := poly_mod (poly_mul a b) x4_x_1.

(** The byte operations of the key expansion of cipher B, on numbers. *)
Definition rotateNibbles (w : N) : N := (w mod 16) * 16 + w / 16.
Definition substitute (sbox : list N) (w : N) : N :=
  nth (N.to_nat (w / 16)) sbox 0 * 16 + nth (N.to_nat (w mod 16)) sbox 0.
Definition concat (hi lo : N) : N := hi * 256 + lo.

End Spec.

(** * Properties of Simplified DES *)

Section SDES_properties.

Import SDES Spec.

Ltac split_bits :=
  repeat match goal with
         | H : bit ?x |- _ => destruct H as [-> | ->]
         end.

(** C7. S-box addressing of cipher A: for a group of four bits
    [g0 g1 g2 g3] (most significant first) and either table, the row is
    [(g0 << 1) | g3], the column is [(g1 << 1) | g2], the table has an entry
    there, and [sBox] returns that entry written on two bits, most
    significant bit first. *)
Theorem sBox_addressing (g0 g1 g2 g3 : Z) (S : list (list Z)) :
  bit g0 -> bit g1 -> bit g2 -> bit g3 ->
  S = S0 \/ S = S1 ->
  let row := Z.lor (Z.shiftl g0 1) g3 in
  let col := Z.lor (Z.shiftl g1 1) g2 in
  exists v : Z,
    entry S row col = Some v /\ 0 <= v < 4 /\
    sBox [g0; g1; g2; g3] S = Some (two_bits v).
Proof.
  intros H0 H1 H2 H3 HS row col; subst row col.
  destruct HS as [-> | ->]; split_bits;
    (eexists; split; [reflexivity | split; [lia | reflexivity]]).
Qed.

Lemma sBox_addressing_witness :
  exists v : Z,
    entry S0 (Z.lor (Z.shiftl 1 1) 0) (Z.lor (Z.shiftl 0 1) 1) = Some v /\ 0 <= v < 4 /\
    sBox [1; 0; 1; 0] S0 = Some (two_bits v).
Proof.
  apply (sBox_addressing 1 0 1 0 S0);
    first [ left; reflexivity | right; reflexivity ].
Defined.

(** The vectors of a given length, written out. *)
Lemma length_4 {A} (v : list A) :
  length v = 4%nat -> exists a b c d, v = [a; b; c; d].
Proof.
  destruct v as [|a [|b [|c [|d [|]]]]]; intros H; try discriminate H.
  by exists a, b, c, d.
Qed.

Lemma length_8 {A} (v : list A) :
  length v = 8%nat ->
  exists a b c d e f g h, v = [a; b; c; d; e; f; g; h].
Proof.
  intros H.
  destruct (length_4 (take 4 v)) as (a & b & c & d & Ht);
    [rewrite length_take; lia|].
  destruct (length_4 (drop 4 v)) as (e & f & g & h & Hd);
    [rewrite length_drop; lia|].
  exists a, b, c, d, e, f, g, h.
  by rewrite <- (take_drop 4 v), Ht, Hd.
Qed.

Lemma length_10 {A} (v : list A) :
  length v = 10%nat ->
  exists a1 a2 a3 a4 a5 a6 a7 a8 a9 a10,
    v = [a1; a2; a3; a4; a5; a6; a7; a8; a9; a10].
Proof.
  intros H.
  destruct (length_8 (take 8 v)) as (a1 & a2 & a3 & a4 & a5 & a6 & a7 & a8 & Ht);
    [rewrite length_take; lia|].
  destruct (drop 8 v) as [|a9 [|a10 [|]]] eqn:Hd;
    try (apply (f_equal length) in Hd; rewrite length_drop in Hd; simpl in Hd; lia).
  exists a1, a2, a3, a4, a5, a6, a7, a8, a9, a10.
  by rewrite <- (take_drop 8 v), Ht, Hd.
Qed.

(** The two round keys in terms of the key bits: the classical S-DES
    schedule. *)
Lemma generateKeys_bits (a1 a2 a3 a4 a5 a6 a7 a8 a9 a10 : Z) :
  generateKeys [a1; a2; a3; a4; a5; a6; a7; a8; a9; a10]
  = Some ([a1; a7; a9; a4; a8; a3; a10; a6], [a8; a3; a6; a5; a10; a2; a9; a1]).
Proof. reflexivity. Qed.

(** C3. Key schedule of cipher A: with [l] and [r] the two halves of the
    key permuted by P10, round key 1 is P8 applied to the halves rotated
    left by one, and round key 2 is P8 applied to those rotated halves
    rotated left by two more, which is a rotation by three of [l] and [r]
    and not a rotation by two of them. *)
Theorem generateKeys_schedule (key : list Z) :
  length key = 10%nat ->
  let p10 := select P10 key in
  let l := take 5 p10 in
  let r := drop 5 p10 in
  generateKeys key
  = Some (select P8 (rotate 1 l ++ rotate 1 r),
          select P8 (rotate 2 (rotate 1 l) ++ rotate 2 (rotate 1 r)))
  /\ rotate 2 (rotate 1 l) = rotate 3 l
  /\ rotate 2 (rotate 1 r) = rotate 3 r.
Proof.
  intros Hlen.
  destruct (length_10 key Hlen)
    as (a1 & a2 & a3 & a4 & a5 & a6 & a7 & a8 & a9 & a10 & ->).
  repeat split; reflexivity.
Qed.

Lemma generateKeys_schedule_witness :
  let key := [1; 0; 1; 0; 0; 0; 0; 0; 1; 0] in
  length key = 10%nat /\
  generateKeys key = Some ([1; 0; 1; 0; 0; 1; 0; 0], [0; 1; 0; 0; 0; 0; 1; 1]).
Proof.
  split; [reflexivity|].
  exact (proj1 (generateKeys_schedule [1; 0; 1; 0; 0; 0; 0; 0; 1; 0] eq_refl)).
Defined.

(** Restarting from the unshifted halves would give another second key. *)
Lemma generateKeys_no_restart :
  let key := [1; 0; 1; 0; 0; 0; 0; 0; 1; 0] in
  let l := take 5 (select P10 key) in
  let r := drop 5 (select P10 key) in
  snd <$> generateKeys key <> Some (select P8 (rotate 2 l ++ rotate 2 r)).
Proof. vm_compute. discriminate. Qed.

(** *** The Feistel structure *)

Lemma permute_IP (a b c d e f g h : Z) :
  permute [a; b; c; d; e; f; g; h] IP 8 = Some [b; f; c; a; d; h; e; g].
Proof. reflexivity. Qed.

Lemma permute_IP_INV (a b c d e f g h : Z) :
  permute [a; b; c; d; e; f; g; h] IP_INV 8 = Some [d; a; c; e; g; b; h; f].
Proof. reflexivity. Qed.

Lemma permute_E_P (a b c d : Z) :
  permute [a; b; c; d] E_P 8 = Some [d; a; b; c; b; c; d; a].
Proof. reflexivity. Qed.

Lemma permute_P4 (a b c d : Z) :
  permute [a; b; c; d] P4 4 = Some [b; d; c; a].
Proof. reflexivity. Qed.

Lemma XOR_4 (a b c d a' b' c' d' : Z) :
  XOR [a; b; c; d] [a'; b'; c'; d']
  = Some [Z.lxor a a'; Z.lxor b b'; Z.lxor c c'; Z.lxor d d'].
Proof. reflexivity. Qed.

Lemma XOR_8 (a b c d e f g h a' b' c' d' e' f' g' h' : Z) :
  XOR [a; b; c; d; e; f; g; h] [a'; b'; c'; d'; e'; f'; g'; h']
  = Some [Z.lxor a a'; Z.lxor b b'; Z.lxor c c'; Z.lxor d d';
          Z.lxor e e'; Z.lxor f f'; Z.lxor g g'; Z.lxor h h'].
Proof. reflexivity. Qed.

Lemma bit_lxor (x y : Z) : bit x -> bit y -> bit (Z.lxor x y).
Proof. intros [-> | ->] [-> | ->]; [left | right | right | left]; reflexivity. Qed.

Lemma lxor_cancel (x y : Z) : Z.lxor (Z.lxor x y) y = x.
Proof. by rewrite Z.lxor_assoc, Z.lxor_nilpotent, Z.lxor_0_r. Qed.

(** Both S-boxes are defined on every group of four bits and give two
    bits. *)
Lemma sBox_total (a b c d : Z) (S : list (list Z)) :
  bit a -> bit b -> bit c -> bit d -> S = S0 \/ S = S1 ->
  exists x y, bit x /\ bit y /\ sBox [a; b; c; d] S = Some [x; y].
Proof.
  intros Ha Hb Hc Hd [-> | ->]; split_bits;
    (eexists _, _; split_and!; [| | reflexivity];
     first [ left; reflexivity | right; reflexivity ]).
Qed.

(** One round: the right half and the round key determine four bits that
    are XORed into the left half, and the right half is passed on. *)
Lemma functionF_round (r1 r2 r3 r4 k1 k2 k3 k4 k5 k6 k7 k8 : Z) :
  bits [r1; r2; r3; r4] -> bits [k1; k2; k3; k4; k5; k6; k7; k8] ->
  exists c1 c2 c3 c4,
    bits [c1; c2; c3; c4] /\
    forall l1 l2 l3 l4 : Z,
      functionF [l1; l2; l3; l4] [r1; r2; r3; r4] [k1; k2; k3; k4; k5; k6; k7; k8]
      = Some [Z.lxor l1 c1; Z.lxor l2 c2; Z.lxor l3 c3; Z.lxor l4 c4;
              r1; r2; r3; r4].
Proof.
  intros Hr Hk.
  apply Forall_cons in Hr as [Hr1 Hr]. apply Forall_cons in Hr as [Hr2 Hr].
  apply Forall_cons in Hr as [Hr3 Hr]. apply Forall_cons in Hr as [Hr4 _].
  apply Forall_cons in Hk as [Hk1 Hk]. apply Forall_cons in Hk as [Hk2 Hk].
  apply Forall_cons in Hk as [Hk3 Hk]. apply Forall_cons in Hk as [Hk4 Hk].
  apply Forall_cons in Hk as [Hk5 Hk]. apply Forall_cons in Hk as [Hk6 Hk].
  apply Forall_cons in Hk as [Hk7 Hk]. apply Forall_cons in Hk as [Hk8 _].
  destruct (sBox_total (Z.lxor r4 k1) (Z.lxor r1 k2) (Z.lxor r2 k3) (Z.lxor r3 k4) S0)
    as (x0 & y0 & Hx0 & Hy0 & HS0); auto using bit_lxor.
  destruct (sBox_total (Z.lxor r2 k5) (Z.lxor r3 k6) (Z.lxor r4 k7) (Z.lxor r1 k8) S1)
    as (x1 & y1 & Hx1 & Hy1 & HS1); auto using bit_lxor.
  exists y0, y1, x1, x0. split.
  { unfold bits. repeat (constructor; [assumption|]). constructor. }
  intros l1 l2 l3 l4. unfold functionF.
  rewrite permute_E_P. cbn [mbind option_bind]. rewrite XOR_8. cbn [mbind option_bind take drop].
  rewrite HS0, HS1. cbn [mbind option_bind app]. rewrite permute_P4. cbn [mbind option_bind].
  rewrite XOR_4. reflexivity.
Qed.

Ltac bits_of H :=
  unfold bits in H;
  repeat match type of H with
         | Forall _ (_ :: _) =>
             let Hb := fresh "Hbit" in apply Forall_cons in H as [Hb H]
         end.

Ltac bits_goal :=
  unfold bits; repeat (constructor; [auto using bit_lxor|]); constructor.

(** C1. Round trip of cipher A: for every block of 8 bits and every key of
    10 bits, encryption returns a block and decrypting that block with the
    same key returns the original block. *)
Theorem sdes_roundtrip (block key : list Z) :
  length block = 8%nat -> length key = 10%nat ->
  bits block -> bits key ->
  exists cipher : list Z,
    sdes block key false = Some cipher /\ sdes cipher key true = Some block.
Proof.
  intros Hb Hk Bb Bk.
  destruct (length_8 block Hb) as (a & b & c & d & e & f & g & h & ->).
  destruct (length_10 key Hk)
    as (a1 & a2 & a3 & a4 & a5 & a6 & a7 & a8 & a9 & a10 & ->).
  bits_of Bb. bits_of Bk.
  destruct (functionF_round d h e g a1 a7 a9 a4 a8 a3 a10 a6)
    as (c1 & c2 & c3 & c4 & Bc & HF1); [bits_goal..|].
  bits_of Bc.
  destruct (functionF_round (Z.lxor b c1) (Z.lxor f c2) (Z.lxor c c3) (Z.lxor a c4)
              a8 a3 a6 a5 a10 a2 a9 a1)
    as (d1 & d2 & d3 & d4 & Bd & HF2); [bits_goal..|].
  unfold sdes. rewrite generateKeys_bits. cbn [mbind option_bind].
  rewrite permute_IP. cbn [mbind option_bind take drop].
  rewrite HF1. cbn [mbind option_bind take drop].
  rewrite HF2. cbn [mbind option_bind]. rewrite permute_IP_INV.
  eexists; split; [reflexivity|].
  rewrite permute_IP. cbn [mbind option_bind take drop].
  rewrite HF2. cbn [mbind option_bind take drop].
  rewrite !lxor_cancel, HF1. cbn [mbind option_bind].
  rewrite !lxor_cancel. apply permute_IP_INV.
Qed.

Lemma sdes_roundtrip_witness :
  let block := [1; 0; 0; 1; 0; 1; 1; 1] in
  let key := [1; 0; 1; 0; 0; 0; 0; 0; 1; 0] in
  exists cipher : list Z,
    sdes block key false = Some cipher /\ sdes cipher key true = Some block.
Proof.
  apply (sdes_roundtrip [1; 0; 0; 1; 0; 1; 1; 1] [1; 0; 1; 0; 0; 0; 0; 0; 1; 0]);
    first [ reflexivity
          | unfold bits;
            repeat (constructor; [first [left; reflexivity | right; reflexivity]|]);
            constructor ].
Defined.

(** The classical test vector of S-DES. *)
Example sdes_test_vector :
  sdes [1; 0; 0; 1; 0; 1; 1; 1] [1; 0; 1; 0; 0; 0; 0; 0; 1; 0] false
  = Some [0; 0; 1; 1; 1; 0; 0; 0].
Proof. reflexivity. Qed.

(** *** Blocks of another width *)

Lemma permute_IP_wide (a b c d e f g h : Z) (rest : list Z) :
  permute (a :: b :: c :: d :: e :: f :: g :: h :: rest) IP 8
  = Some [b; f; c; a; d; h; e; g].
Proof. reflexivity. Qed.

Lemma permute_IP_short (input : list Z) :
  (length input < 8)%nat -> permute input IP 8 = None.
Proof.
  intros H.
  do 8 (destruct input as [|? input]; [reflexivity|]).
  simpl in H. lia.
Qed.

(** C8, as the code has it.  [sdes] checks no width and the program has no
    width error: a block of more than 8 entries is accepted and only its
    first 8 entries are used; a block of fewer than 8 entries makes
    [permute] read outside the vector, which yields no result and raises
    nothing.  The width is checked where the menu reads its input:
    [parseBits] returns the empty vector for a string whose length is not
    the expected width. *)
Theorem sdes_no_width_check (input key : list Z) (decrypt : bool) :
  ((8 <= length input)%nat -> sdes input key decrypt = sdes (take 8 input) key decrypt)
  /\ ((length input < 8)%nat -> sdes input key decrypt = None)
  /\ (forall s : string, String.length s <> 8%nat -> parseBits s 8 = []).
Proof.
  split_and!.
  - intros H.
    do 8 (destruct input as [|? input]; [simpl in H; lia|]).
    unfold sdes. cbn [take]. rewrite take_0.
    destruct (generateKeys key) as [[k1 k2]|]; [|reflexivity].
    cbn [mbind option_bind]. by rewrite permute_IP_wide, permute_IP.
  - intros H. unfold sdes.
    destruct (generateKeys key) as [[k1 k2]|]; [|reflexivity].
    cbn [mbind option_bind]. rewrite (permute_IP_short input H).
    by destruct decrypt.
  - intros s Hs. unfold parseBits.
    by rewrite (bool_decide_eq_true_2 _ Hs).
Qed.

Lemma sdes_no_width_check_witness :
  (length [1; 0; 0; 1; 0; 1; 1] < 8)%nat
  /\ sdes [1; 0; 0; 1; 0; 1; 1] [1; 0; 1; 0; 0; 0; 0; 0; 1; 0] false = None.
Proof.
  split; [simpl; lia|].
  apply (proj1 (proj2 (sdes_no_width_check
                         [1; 0; 0; 1; 0; 1; 1] [1; 0; 1; 0; 0; 0; 0; 0; 1; 0] false))).
  simpl; lia.
Defined.

(** C8, as stated, fails: a block of 9 entries is not rejected; it is
    encrypted as its first 8 entries are. *)
Lemma sdes_accepts_wide_block :
  let block := [1; 0; 0; 1; 0; 1; 1; 1; 1] in
  let key := [1; 0; 1; 0; 0; 0; 0; 0; 1; 0] in
  length block <> 8%nat
  /\ sdes block key false = Some [0; 0; 1; 1; 1; 0; 0; 0]
  /\ sdes block key false = sdes [1; 0; 0; 1; 0; 1; 1; 1] key false.
Proof. split_and!; [discriminate | reflexivity | reflexivity]. Qed.

(** ** Further properties of the S-DES primitives *)

Lemma mapM_fmap_compose {A B C} (f : B -> option C) (g : A -> B) (l : list A) :
  mapM f (g <$> l) = mapM (f ∘ g) l.
Proof. induction l as [|a l IH]; [reflexivity|]. cbn. by rewrite IH. Qed.

(** Reading a table through the indices [0 .. size-1] is going through its
    first [size] entries. *)
Lemma mapM_by_index {A B} (g : A -> option B) (l : list A) (size : nat) :
  (size <= length l)%nat ->
  mapM (fun i : nat => l !! i ≫= g) (seq 0 size) = mapM g (take size l).
Proof.
  revert size. induction l as [|a l IH]; intros [|size] Hs;
    try reflexivity; [simpl in Hs; lia|].
  cbn [seq take]. rewrite <- fmap_S_seq. simpl.
  rewrite mapM_fmap_compose. rewrite <- (IH size) by (simpl in Hs; lia).
  reflexivity.
Qed.

Lemma mapM_total {A B} (g : A -> option B) (h : A -> B) (l : list A) :
  Forall (fun a => g a = Some (h a)) l -> mapM g l = Some (h <$> l).
Proof.
  induction 1 as [|a l Ha _ IH]; [reflexivity|].
  cbn. rewrite Ha. cbn. by rewrite IH.
Qed.

Lemma idx_in_bounds (arr : list Z) (p : Z) :
  1 <= p <= Z.of_nat (length arr) ->
  idx arr (p - 1) = Some (nth (Z.to_nat (p - 1)) arr 0).
Proof.
  intros Hp. unfold idx. rewrite bool_decide_eq_true_2 by lia.
  destruct (lookup_lt_is_Some_2 arr (Z.to_nat (p - 1)) ltac:(lia)) as [v Hv].
  rewrite Hv. f_equal. symmetry. by apply nth_lookup_Some.
Qed.

Lemma idx_out_of_bounds (arr : list Z) (p : Z) :
  ~ 1 <= p <= Z.of_nat (length arr) -> idx arr (p - 1) = None.
Proof.
  intros Hp. unfold idx. case_bool_decide; [|reflexivity].
  apply lookup_ge_None_2. lia.
Qed.

(** X1. [permute] returns a vector exactly when the table has at least
    [size] entries and each of its first [size] entries is a position of
    the input, counted from 1; the vector then holds the input entries at
    these positions, in the order of the table. *)
Theorem permute_characterised (arr perm : list Z) (size : nat) :
  permute arr perm size
  = if decide ((size <= length perm)%nat
               /\ Forall (fun p => 1 <= p <= Z.of_nat (length arr)) (take size perm))
    then Some (select (take size perm) arr)
    else None.
Proof.
  unfold permute. case_decide as Hok.
  - destruct Hok as [Hsize Hall].
    rewrite (mapM_by_index (fun p => idx arr (p - 1))) by assumption.
    apply mapM_total. eapply Forall_impl; [exact Hall|].
    intros p Hp. by apply idx_in_bounds.
  - apply mapM_None_2. apply not_and_l in Hok as [Hsize | Hall].
    + apply Exists_exists. exists (length perm). split.
      * apply elem_of_seq. lia.
      * by rewrite lookup_ge_None_2.
    + apply not_Forall_Exists in Hall; [|intros p; apply _].
      apply Exists_exists in Hall as (p & Hin & Hp).
      apply list_elem_of_lookup in Hin as [i Hi].
      apply lookup_take_Some in Hi as [Hi Hlt].
      apply Exists_exists. exists i. split.
      * apply elem_of_seq. lia.
      * rewrite Hi. cbn. by apply idx_out_of_bounds.
Qed.



Lemma XOR_zip_with (a b : list Z) :
  XOR a b = if decide (length a <= length b)%nat
            then Some (zip_with Z.lxor a b) else None.
Proof.
  unfold XOR. case_decide as Hlen.
  - apply mapM_Some, Forall2_same_length_lookup.
    split; [rewrite length_seq, length_zip_with; lia|].
    intros i j v Hj Hv. apply lookup_seq in Hj as [-> Hi]. cbn.
    apply lookup_zip_with_Some in Hv as (x & y & -> & Hx & Hy).
    by rewrite Hx, Hy.
  - apply mapM_None_2, Exists_exists. exists (length b). split.
    + apply elem_of_seq. lia.
    + destruct (lookup_lt_is_Some_2 a (length b) ltac:(lia)) as [x ->].
      cbn. by rewrite lookup_ge_None_2.
Qed.

(** X3. [XOR] returns a vector exactly when the second argument is at
    least as long as the first; the vector is the entry-wise exclusive or,
    of the length of the first argument: what the second argument has
    beyond that length is ignored. *)
Theorem XOR_characterised (a b : list Z) :
  XOR a b = if decide (length a <= length b)%nat
            then Some (zip_with Z.lxor a b) else None.
Proof. apply XOR_zip_with. Qed.


Lemma zip_with_lxor_cancel (a b : list Z) :
  (length a <= length b)%nat -> zip_with Z.lxor (zip_with Z.lxor a b) b = a.
Proof.
  revert b. induction a as [|x a IH]; intros [|y b] Hlen;
    try reflexivity; [simpl in Hlen; lia|].
  cbn. rewrite lxor_cancel, IH by (simpl in Hlen; lia). reflexivity.
Qed.

(** X4. [XOR] with a fixed second argument undoes itself: applied to its
    own result it gives the first argument back. *)
Theorem XOR_involution (a b c : list Z) :
  XOR a b = Some c -> XOR c b = Some a.
Proof.
  rewrite !XOR_zip_with. intros Hc.
  case_decide as Hlen; [|discriminate]. injection Hc as <-.
  rewrite length_zip_with, decide_True by lia.
  by rewrite zip_with_lxor_cancel.
Qed.

Lemma XOR_involution_witness :
  XOR [1; 0; 1] [1; 1; 0; 1] = Some [0; 1; 1]
  /\ XOR [0; 1; 1] [1; 1; 0; 1] = Some [1; 0; 1].
Proof.
  split; [reflexivity|].
  exact (XOR_involution [1; 0; 1] [1; 1; 0; 1] [0; 1; 1] eq_refl).
Defined.

(** *** Numbers and vectors of bits *)

Lemma intToBin_loop_app (n : nat) (val : Z) (acc : list Z) :
  intToBin_loop n val acc = intToBin_loop n val [] ++ acc.
Proof.
  revert val acc. induction n as [|n IH]; intros val acc; [reflexivity|].
  cbn [intToBin_loop]. rewrite IH, (IH _ [_]), <- app_assoc. reflexivity.
Qed.

Lemma intToBin_S (val : Z) (n : nat) :
  intToBin val (S n) = intToBin (Z.shiftr val 1) n ++ [Z.land val 1].
Proof. unfold intToBin. cbn [intToBin_loop]. apply intToBin_loop_app. Qed.

Lemma binToInt_snoc (l : list Z) (b : Z) :
  binToInt (l ++ [b]) = Z.lor (wrap32 (Z.shiftl (binToInt l) 1)) b.
Proof. unfold binToInt. by rewrite fold_left_app. Qed.

Lemma wrap32_in_range (x : Z) : - 2 ^ 31 <= x < 2 ^ 31 -> wrap32 x = x.
Proof. intros H. unfold wrap32. rewrite Z.mod_small by lia. lia. Qed.

Lemma lor_double_bit (x b : Z) : bit b -> Z.lor (2 * x) b = 2 * x + b.
Proof.
  intros [-> | ->]; [by rewrite Z.lor_0_r, Z.add_0_r|].
  assert (Hland : Z.land (2 * x) 1 = 0).
  { change 1 with (Z.ones 1) at 1. rewrite Z.land_ones by lia.
    change (2 ^ 1) with 2. rewrite Z.mul_comm. apply Z.mod_mul. lia. }
  by rewrite <- Z.lxor_lor, <- Z.add_nocarry_lxor.
Qed.

Lemma land_1 (x : Z) : Z.land x 1 = x mod 2.
Proof. change 1 with (Z.ones 1). by rewrite Z.land_ones by lia. Qed.

Lemma binToInt_snoc_bit (l : list Z) (b : Z) :
  0 <= binToInt l < 2 ^ 30 -> bit b ->
  binToInt (l ++ [b]) = 2 * binToInt l + b.
Proof.
  intros Hl Hb. rewrite binToInt_snoc, Z.shiftl_mul_pow2 by lia.
  change (2 ^ 1) with 2. rewrite wrap32_in_range by lia.
  rewrite (Z.mul_comm _ 2). by apply lor_double_bit.
Qed.

Lemma binToInt_bound (l : list Z) :
  bits l -> (length l <= 31)%nat -> 0 <= binToInt l < 2 ^ Z.of_nat (length l).
Proof.
  induction l as [|b l IH] using rev_ind; intros Hb Hlen; [by cbn|].
  apply Forall_app in Hb as [Hl Hb]. apply Forall_cons in Hb as [Hb _].
  rewrite length_app in *. cbn [length] in *.
  assert (Hl' : 0 <= binToInt l < 2 ^ Z.of_nat (length l)) by (apply IH; [done|lia]).
  assert (2 ^ Z.of_nat (length l) <= 2 ^ 30)
    by (apply Z.pow_le_mono_r; lia).
  rewrite binToInt_snoc_bit by (done || lia).
  replace (Z.of_nat (length l + 1)) with (Z.of_nat (length l) + 1) by lia.
  rewrite Z.pow_add_r, Z.pow_1_r by lia.
  destruct Hb as [-> | ->]; lia.
Qed.

(** X5. A number written on [n <= 31] bits by [intToBin] and read back by
    [binToInt] is the number modulo [2^n]. *)
Theorem binToInt_intToBin (val : Z) (n : nat) :
  0 <= val -> (n <= 31)%nat -> binToInt (intToBin val n) = val mod 2 ^ Z.of_nat n.
Proof.
  intros Hv Hn. revert val Hv. induction n as [|n IH]; intros val Hv.
  - cbn. by rewrite Z.mod_1_r.
  - rewrite intToBin_S, land_1.
    assert (Hhalf : 0 <= val / 2) by (apply Z.div_pos; lia).
    rewrite Z.shiftr_div_pow2 by lia. change (2 ^ 1) with 2.
    pose proof (Z.mod_pos_bound (val / 2) (2 ^ Z.of_nat n) ltac:(lia)) as Hb.
    assert (2 ^ Z.of_nat n <= 2 ^ 30) by (apply Z.pow_le_mono_r; lia).
    pose proof (Z.mod_pos_bound val 2 ltac:(lia)) as Hbit.
    rewrite binToInt_snoc_bit; rewrite ?IH by lia; [|lia|unfold bit; lia].
    replace (Z.of_nat (S n)) with (1 + Z.of_nat n) by lia.
    rewrite Z.pow_add_r, Z.pow_1_r by lia.
    rewrite Z.rem_mul_r by lia. lia.
Qed.

Lemma binToInt_intToBin_witness :
  0 <= 11 /\ (4 <= 31)%nat /\ binToInt (intToBin 11 4) = 11 mod 2 ^ Z.of_nat 4.
Proof.
  split; [lia|]. split; [lia|]. apply (binToInt_intToBin 11 4); lia.
Defined.

(** X6. A vector of at most 31 bits read by [binToInt] and written back by
    [intToBin] on as many bits is the vector itself. *)
Theorem intToBin_binToInt (v : list Z) :
  bits v -> (length v <= 31)%nat -> intToBin (binToInt v) (length v) = v.
Proof.
  induction v as [|b l IH] using rev_ind; intros Hb Hlen; [reflexivity|].
  assert (Hb' := Hb).
  apply Forall_app in Hb as [Hl Hb]. apply Forall_cons in Hb as [Hb _].
  rewrite length_app in *. cbn [length] in *.
  pose proof (binToInt_bound l Hl ltac:(lia)) as Hbound.
  assert (2 ^ Z.of_nat (length l) <= 2 ^ 30) by (apply Z.pow_le_mono_r; lia).
  rewrite Nat.add_1_r, intToBin_S, land_1, binToInt_snoc_bit by (done || lia).
  rewrite Z.shiftr_div_pow2 by lia. change (2 ^ 1) with 2.
  assert (Hdiv : (2 * binToInt l + b) / 2 = binToInt l)
    by (destruct Hb as [-> | ->]; Z.to_euclidean_division_equations; lia).
  assert (Hmod : (2 * binToInt l + b) mod 2 = b)
    by (destruct Hb as [-> | ->]; Z.to_euclidean_division_equations; lia).
  rewrite Hdiv, Hmod, IH by (done || lia). reflexivity.
Qed.

Lemma intToBin_binToInt_witness :
  (length [1; 0; 1; 1] <= 31)%nat
  /\ intToBin (binToInt [1; 0; 1; 1]) (length [1; 0; 1; 1]) = [1; 0; 1; 1].
Proof.
  split; [simpl; lia|].
  apply (intToBin_binToInt [1; 0; 1; 1]); [|simpl; lia].
  unfold bits. repeat (constructor; [first [left; reflexivity | right; reflexivity]|]).
  constructor.
Defined.

(** *** Reading and writing vectors of bits *)

Lemma is_bit_char_cases (c : Ascii.ascii) :
  is_bit_char c = true -> c = "0"%char \/ c = "1"%char.
Proof.
  unfold is_bit_char. intros [H | H]%orb_true_iff;
    apply bool_decide_eq_true_1 in H; auto.
Qed.

Lemma digits_of_bit_chars (s : string) :
  forallb is_bit_char (String.list_ascii_of_string s) = true ->
  let v := map (fun c : Ascii.ascii =>
                  Z.of_nat (Ascii.nat_of_ascii c) - Z.of_nat (Ascii.nat_of_ascii "0"%char))
               (String.list_ascii_of_string s) in
  length v = String.length s /\ bits v /\ printBits v = s +:+ newline.
Proof.
  induction s as [|c s IH]; intros Hall v; subst v.
  - split_and!; [reflexivity | constructor | reflexivity].
  - cbn [String.list_ascii_of_string forallb] in Hall.
    apply andb_true_iff in Hall as [Hc Hs].
    destruct (IH Hs) as (Hlen & Hbits & Hprint).
    cbn [String.list_ascii_of_string map length String.length printBits fold_right].
    fold (printBits (map (fun c0 : Ascii.ascii =>
                  Z.of_nat (Ascii.nat_of_ascii c0) - Z.of_nat (Ascii.nat_of_ascii "0"%char))
               (String.list_ascii_of_string s))).
    rewrite Hprint, Hlen.
    destruct (is_bit_char_cases c Hc) as [-> | ->];
      (split_and!; [reflexivity | constructor; [|assumption] | reflexivity]);
      [left | right]; reflexivity.
Qed.

(** X7. When [parseBits] returns a vector that is not empty, the string
    had exactly the expected length and the vector has this length, holds
    bits only, and is printed by [printBits] as the string itself followed
    by a line feed. *)
Theorem parseBits_valid (s : string) (expected : nat) :
  parseBits s expected <> [] ->
  String.length s = expected
  /\ length (parseBits s expected) = expected
  /\ bits (parseBits s expected)
  /\ printBits (parseBits s expected) = s +:+ newline.
Proof.
  unfold parseBits. intros Hne.
  destruct (bool_decide (String.length s <> expected)) eqn:Hlen;
    [by destruct Hne|].
  destruct (forallb is_bit_char (String.list_ascii_of_string s)) eqn:Hall;
    [|by destruct Hne].
  cbn [negb orb] in *.
  apply bool_decide_eq_false_1 in Hlen. apply dec_stable in Hlen.
  destruct (digits_of_bit_chars s Hall) as (H1 & H2 & H3).
  split_and!; [assumption | by rewrite H1 | assumption | assumption].
Qed.

Lemma parseBits_valid_witness :
  parseBits "10" 2 <> [] /\ printBits (parseBits "10" 2) = "10" +:+ newline.
Proof.
  assert (H : parseBits "10" 2 <> []) by discriminate.
  split; [exact H|]. exact (proj2 (proj2 (proj2 (parseBits_valid "10" 2 H)))).
Defined.

(** X8. Every string whose length is not the expected one, and every
    string with a character other than 0 and 1, is refused: [parseBits]
    returns the empty vector, which the menu takes as no input. *)
Theorem parseBits_refuses (s : string) (expected : nat) :
  String.length s <> expected
  \/ Exists (fun c => c <> "0"%char /\ c <> "1"%char) (String.list_ascii_of_string s) ->
  parseBits s expected = [].
Proof.
  intros [Hlen | Hbad]; unfold parseBits.
  - by rewrite (bool_decide_eq_true_2 _ Hlen).
  - assert (Hall : forallb is_bit_char (String.list_ascii_of_string s) = false).
    { apply not_true_is_false. intros Hall.
      rewrite forallb_forall in Hall.
      apply Exists_exists in Hbad as (c & Hin & H0 & H1).
      apply list_elem_of_In in Hin.
      destruct (is_bit_char_cases c (Hall c Hin)); contradiction. }
    rewrite Hall. by rewrite orb_true_r.
Qed.

Lemma parseBits_refuses_witness : parseBits "1021" 4 = [].
Proof.
  apply (parseBits_refuses "1021" 4). right.
  apply Exists_cons_tl, Exists_cons_tl, Exists_cons_hd. split; discriminate.
Defined.

(** *** The cipher as a whole *)

(** X9. One round of cipher A applied twice with the same round key gives
    the two halves back: [functionF] changes the left half only, by an
    exclusive or that depends on the right half and the key. *)
Theorem functionF_involution (l r k : list Z) :
  length l = 4%nat -> length r = 4%nat -> length k = 8%nat ->
  bits l -> bits r -> bits k ->
  exists l' : list Z,
    functionF l r k = Some (l' ++ r)
    /\ length l' = 4%nat /\ bits l'
    /\ functionF l' r k = Some (l ++ r).
Proof.
  intros Hl Hr Hk Bl Br Bk.
  destruct (length_4 l Hl) as (l1 & l2 & l3 & l4 & ->).
  destruct (length_4 r Hr) as (r1 & r2 & r3 & r4 & ->).
  destruct (length_8 k Hk) as (k1 & k2 & k3 & k4 & k5 & k6 & k7 & k8 & ->).
  destruct (functionF_round r1 r2 r3 r4 k1 k2 k3 k4 k5 k6 k7 k8 Br Bk)
    as (c1 & c2 & c3 & c4 & Bc & HF).
  bits_of Bl. bits_of Bc.
  exists [Z.lxor l1 c1; Z.lxor l2 c2; Z.lxor l3 c3; Z.lxor l4 c4].
  split_and!; [apply HF | reflexivity | bits_goal |].
  rewrite HF, !lxor_cancel. reflexivity.
Qed.

Lemma functionF_involution_witness :
  exists l' : list Z,
    functionF [1; 0; 1; 1] [0; 1; 1; 0] [1; 0; 1; 0; 0; 1; 0; 0] = Some (l' ++ [0; 1; 1; 0])
    /\ length l' = 4%nat /\ bits l'
    /\ functionF l' [0; 1; 1; 0] [1; 0; 1; 0; 0; 1; 0; 0] = Some ([1; 0; 1; 1] ++ [0; 1; 1; 0]).
Proof.
  apply (functionF_involution [1; 0; 1; 1] [0; 1; 1; 0] [1; 0; 1; 0; 0; 1; 0; 0]);
    first [ reflexivity
          | unfold bits;
            repeat (constructor; [first [left; reflexivity | right; reflexivity]|]);
            constructor ].
Defined.

(** X10. For either value of the flag, [sdes] maps a block of 8 bits to a
    block of 8 bits, and [sdes] with the other value of the flag maps that
    block back: with a key of 10 bits, encryption and decryption are two
    permutations of the 8-bit blocks, inverse of each other. *)
Theorem sdes_inverse (block key : list Z) (decrypt : bool) :
  length block = 8%nat -> length key = 10%nat ->
  bits block -> bits key ->
  exists out : list Z,
    sdes block key decrypt = Some out
    /\ length out = 8%nat /\ bits out
    /\ sdes out key (negb decrypt) = Some block.
Proof.
  intros Hb Hk Bb Bk.
  destruct (length_8 block Hb) as (a & b & c & d & e & f & g & h & ->).
  destruct (length_10 key Hk)
    as (a1 & a2 & a3 & a4 & a5 & a6 & a7 & a8 & a9 & a10 & ->).
  bits_of Bb. bits_of Bk.
  unfold sdes. rewrite generateKeys_bits. cbn [mbind option_bind].
  destruct decrypt; cbn [negb].
  - destruct (functionF_round d h e g a8 a3 a6 a5 a10 a2 a9 a1)
      as (c1 & c2 & c3 & c4 & Bc & HF1); [bits_goal..|].
    bits_of Bc.
    destruct (functionF_round (Z.lxor b c1) (Z.lxor f c2) (Z.lxor c c3) (Z.lxor a c4)
                a1 a7 a9 a4 a8 a3 a10 a6)
      as (d1 & d2 & d3 & d4 & Bd & HF2); [bits_goal..|].
    bits_of Bd.
    rewrite permute_IP. cbn [mbind option_bind take drop].
    rewrite HF1. cbn [mbind option_bind take drop].
    rewrite HF2. cbn [mbind option_bind]. rewrite permute_IP_INV.
    eexists; split_and!; [reflexivity | reflexivity | bits_goal |].
    rewrite permute_IP. cbn [mbind option_bind take drop].
    rewrite HF2. cbn [mbind option_bind take drop].
    rewrite !lxor_cancel, HF1. cbn [mbind option_bind].
    rewrite !lxor_cancel. apply permute_IP_INV.
  - destruct (functionF_round d h e g a1 a7 a9 a4 a8 a3 a10 a6)
      as (c1 & c2 & c3 & c4 & Bc & HF1); [bits_goal..|].
    bits_of Bc.
    destruct (functionF_round (Z.lxor b c1) (Z.lxor f c2) (Z.lxor c c3) (Z.lxor a c4)
                a8 a3 a6 a5 a10 a2 a9 a1)
      as (d1 & d2 & d3 & d4 & Bd & HF2); [bits_goal..|].
    bits_of Bd.
    rewrite permute_IP. cbn [mbind option_bind take drop].
    rewrite HF1. cbn [mbind option_bind take drop].
    rewrite HF2. cbn [mbind option_bind]. rewrite permute_IP_INV.
    eexists; split_and!; [reflexivity | reflexivity | bits_goal |].
    rewrite permute_IP. cbn [mbind option_bind take drop].
    rewrite HF2. cbn [mbind option_bind take drop].
    rewrite !lxor_cancel, HF1. cbn [mbind option_bind].
    rewrite !lxor_cancel. apply permute_IP_INV.
Qed.

Lemma sdes_inverse_witness :
  exists out : list Z,
    sdes [0; 0; 1; 1; 1; 0; 0; 0] [1; 0; 1; 0; 0; 0; 0; 0; 1; 0] true = Some out
    /\ length out = 8%nat /\ bits out
    /\ sdes out [1; 0; 1; 0; 0; 0; 0; 0; 1; 0] (negb true) = Some [0; 0; 1; 1; 1; 0; 0; 0].
Proof.
  apply (sdes_inverse [0; 0; 1; 1; 1; 0; 0; 0] [1; 0; 1; 0; 0; 0; 0; 0; 1; 0] true);
    first [ reflexivity
          | unfold bits;
            repeat (constructor; [first [left; reflexivity | right; reflexivity]|]);
            constructor ].
Defined.

Lemma generateKeys_wide (a1 a2 a3 a4 a5 a6 a7 a8 a9 a10 : Z) (rest : list Z) :
  generateKeys (a1 :: a2 :: a3 :: a4 :: a5 :: a6 :: a7 :: a8 :: a9 :: a10 :: rest)
  = Some ([a1; a7; a9; a4; a8; a3; a10; a6], [a8; a3; a6; a5; a10; a2; a9; a1]).
Proof. reflexivity. Qed.

Lemma generateKeys_short (key : list Z) :
  (length key < 10)%nat -> generateKeys key = None.
Proof.
  intros H.
  do 10 (destruct key as [|? key]; [reflexivity|]).
  simpl in H. lia.
Qed.

(** X11. The key width is not checked either.  A key of fewer than 10
    entries gives no round keys and [sdes] no result, whatever the block; a
    key of more than 10 entries is used as its first 10 entries are. *)
Theorem sdes_key_width (input key : list Z) (decrypt : bool) :
  ((length key < 10)%nat ->
     generateKeys key = None /\ sdes input key decrypt = None)
  /\ ((10 <= length key)%nat ->
       generateKeys key = generateKeys (take 10 key)
       /\ is_Some (generateKeys key)
       /\ sdes input key decrypt = sdes input (take 10 key) decrypt).
Proof.
  split.
  - intros H. unfold sdes. by rewrite (generateKeys_short key H).
  - intros H.
    do 10 (destruct key as [|? key]; [simpl in H; lia|]).
    unfold sdes. cbn [take]. rewrite take_0.
    rewrite generateKeys_wide, generateKeys_bits. eauto.
Qed.

Lemma sdes_key_width_witness :
  (length [1; 0; 1] < 10)%nat
  /\ sdes [1; 0; 0; 1; 0; 1; 1; 1] [1; 0; 1] false = None.
Proof.
  split; [simpl; lia|].
  apply (proj1 (sdes_key_width [1; 0; 0; 1; 0; 1; 1; 1] [1; 0; 1] false)).
  simpl; lia.
Defined.

End SDES_properties.

(** * Properties of Simplified AES *)

Section SAES_properties.

Import SAES Spec.
Local Open Scope N_scope.

(** *** Exhaustive checks over small ranges *)

Lemma below_elem (n : nat) (x : N) :
  x < N.of_nat n -> x ∈ (N.of_nat <$> seq 0 n).
Proof.
  intros H. apply list_elem_of_fmap. exists (N.to_nat x).
  split; [lia | apply elem_of_seq; lia].
Qed.

Lemma forall_below (n : nat) (P : N -> Prop) `{!forall x, Decision (P x)} :
  bool_decide (Forall P (N.of_nat <$> seq 0 n)) = true ->
  forall x, x < N.of_nat n -> P x.
Proof.
  intros Hall x Hx. apply bool_decide_eq_true_1 in Hall.
  rewrite Forall_forall in Hall. by apply Hall, below_elem.
Qed.

Lemma forall_below2 (n : nat) (P : N -> N -> Prop) `{!forall x y, Decision (P x y)} :
  bool_decide (Forall (fun x => Forall (P x) (N.of_nat <$> seq 0 n))
                      (N.of_nat <$> seq 0 n)) = true ->
  forall x y, x < N.of_nat n -> y < N.of_nat n -> P x y.
Proof.
  intros Hall x y Hx Hy. apply bool_decide_eq_true_1 in Hall.
  rewrite Forall_forall in Hall. specialize (Hall x (below_elem _ _ Hx)).
  rewrite Forall_forall in Hall. by apply Hall, below_elem.
Qed.

(** Closes a goal [forall x, x < n -> P x] (or its analogue with two
    variables) by evaluating [P] at every number below [n]. *)
Ltac by_cases_below n :=
  lazymatch goal with
  | |- forall x y : N, x < _ -> y < _ -> @?P x y =>
      unshelve refine (@forall_below2 n P _ _);
      [(intros; cbv beta; apply _).. | vm_compute; reflexivity]
  | |- forall x : N, x < _ -> @?P x =>
      unshelve refine (@forall_below n P _ _);
      [(intros; cbv beta; apply _).. | vm_compute; reflexivity]
  end.

(** *** GF(2^4) *)

Lemma mod_16_nibble (x : N) : x mod 16 < 16.
Proof. apply N.mod_lt. discriminate. Qed.

Lemma land_15 (x : N) : N.land x 0x0F = x mod 16.
Proof. exact (N.land_ones x 4). Qed.

Lemma gfMult_mask (a b : N) : gfMult a b = gfMult (a mod 16) (b mod 16).
Proof.
  unfold gfMult. rewrite !land_15.
  by rewrite !(N.mod_small (_ mod 16) 16) by apply mod_16_nibble.
Qed.

Lemma gfMult_on_nibbles (a b : N) :
  a < 16 -> b < 16 -> gfMult a b = gf16_mul a b /\ gfMult a b < 16.
Proof. intros Ha Hb. revert a b Ha Hb. by_cases_below 16%nat. Qed.

(** The specification-level product is the remainder of the polynomial
    product in the division by [x^4 + x + 1]: it has degree below 4 and
    differs from the product by a multiple of the modulus. *)
Lemma gf16_mul_remainder (a b : N) :
  a < 16 -> b < 16 ->
  gf16_mul a b < 16 /\
  Exists (fun q => poly_mul a b = N.lxor (poly_mul q x4_x_1) (gf16_mul a b))
         (N.of_nat <$> seq 0 8).
Proof. revert a b. by_cases_below 16%nat. Qed.

(** With [N.lxor] as sum it makes the sixteen nibbles a field. *)
Lemma gf16_mul_field (a b : N) :
  a < 16 -> b < 16 ->
  gf16_mul 1 a = a
  /\ gf16_mul a b = gf16_mul b a
  /\ (a <> 0 -> Exists (fun i => gf16_mul a i = 1) (N.of_nat <$> seq 0 16))
  /\ Forall (fun c =>
               gf16_mul a (gf16_mul b c) = gf16_mul (gf16_mul a b) c
               /\ gf16_mul a (N.lxor b c) = N.lxor (gf16_mul a b) (gf16_mul a c))
            (N.of_nat <$> seq 0 16).
Proof. revert a b. by_cases_below 16%nat. Qed.

(** C5. [gfMult] is the product of GF(2^4) with reduction polynomial
    [x^4 + x + 1] applied to the operands reduced modulo 16; the result is
    below 16, zero is absorbing and the product is commutative.  The last
    two facts hold for all operands, the 4-bit ones in particular. *)
Theorem gfMult_gf16 (a b : N) :
  gfMult a b = gf16_mul (a mod 16) (b mod 16)
  /\ gfMult a b < 16
  /\ gfMult a 0 = 0
  /\ gfMult a b = gfMult b a.
Proof.
  pose proof (mod_16_nibble a) as Ha. pose proof (mod_16_nibble b) as Hb.
  assert (Hcomm : forall x y, x < 16 -> y < 16 -> gfMult x y = gfMult y x)
    by by_cases_below 16%nat.
  assert (Hzero : forall x, x < 16 -> gfMult x 0 = 0) by by_cases_below 16%nat.
  split_and!.
  - rewrite gfMult_mask. by apply gfMult_on_nibbles.
  - rewrite gfMult_mask. by apply gfMult_on_nibbles.
  - rewrite gfMult_mask. by apply Hzero.
  - rewrite (gfMult_mask a b), (gfMult_mask b a). by apply Hcomm.
Qed.

(** *** The layers of a round *)

Lemma nibble_state_inv (s : list N) :
  nibble_state s ->
  exists a b c d, s = [a; b; c; d] /\ a < 16 /\ b < 16 /\ c < 16 /\ d < 16.
Proof.
  intros [Hlen Hall].
  destruct s as [|a [|b [|c [|d [|]]]]]; try discriminate Hlen.
  apply Forall_cons in Hall as [Ha Hall]. apply Forall_cons in Hall as [Hb Hall].
  apply Forall_cons in Hall as [Hc Hall]. apply Forall_cons in Hall as [Hd _].
  by exists a, b, c, d.
Qed.

Lemma nibble_state_intro (a b c d : N) :
  a < 16 -> b < 16 -> c < 16 -> d < 16 -> nibble_state [a; b; c; d].
Proof.
  intros. split; [reflexivity|].
  repeat (constructor; [assumption|]). constructor.
Qed.

Lemma intToState_div_mod (n : N) :
  intToState n = [(n / 4096) mod 16; (n / 16) mod 16; (n / 256) mod 16; n mod 16].
Proof.
  unfold intToState, u8. rewrite !land_15, !N.shiftr_div_pow2.
  by rewrite !(N.mod_small (_ mod 16) 256)
    by (pose proof (mod_16_nibble n); pose proof (mod_16_nibble (n / 2 ^ 12));
        pose proof (mod_16_nibble (n / 2 ^ 4)); pose proof (mod_16_nibble (n / 2 ^ 8));
        lia).
Qed.

Lemma stateToInt_sum (a b c d : N) :
  stateToInt [a; b; c; d] = (a * 4096 + c * 256 + b * 16 + d) mod 65536.
Proof. unfold stateToInt, u16, at_. cbn [nth N.to_nat]. by rewrite !N.shiftl_mul_pow2. Qed.

Lemma intToState_nibbles (n : N) : nibble_state (intToState n).
Proof. rewrite intToState_div_mod. apply nibble_state_intro; apply mod_16_nibble. Qed.

Lemma stateToInt_intToState (n : N) :
  n < 65536 -> stateToInt (intToState n) = n.
Proof.
  intros H. rewrite intToState_div_mod, stateToInt_sum.
  zify. Z.to_euclidean_division_equations. lia.
Qed.

Lemma intToState_stateToInt (s : list N) :
  nibble_state s -> intToState (stateToInt s) = s.
Proof.
  intros (a & b & c & d & -> & Ha & Hb & Hc & Hd)%nibble_state_inv.
  rewrite stateToInt_sum, intToState_div_mod.
  repeat f_equal; zify; Z.to_euclidean_division_equations; lia.
Qed.

Lemma xor_nibbles (x y : N) :
  x < 16 -> y < 16 ->
  u8 (N.lxor x y) = N.lxor x y /\ N.lxor x y < 16 /\ N.lxor x (N.lxor x y) = y.
Proof. revert x y. by_cases_below 16%nat. Qed.

Lemma sBox_nibbles (x : N) :
  x < 16 -> at_ sBox x < 16 /\ at_ sBoxI x < 16 /\ at_ sBoxI (at_ sBox x) = x.
Proof. revert x. by_cases_below 16%nat. Qed.

(** One column of the diffusion layer and of its inverse. *)
Lemma column_facts (x y : N) :
  x < 16 -> y < 16 ->
  let mix := u8 (N.lxor x (gfMult 4 y)) in
  let mix' := u8 (N.lxor y (gfMult 4 x)) in
  let inv := u8 (N.lxor (gfMult 9 x) (gfMult 2 y)) in
  let inv' := u8 (N.lxor (gfMult 9 y) (gfMult 2 x)) in
  mix = N.lxor x (gf16_mul 4 y) /\ mix < 16
  /\ inv = N.lxor (gf16_mul 9 x) (gf16_mul 2 y) /\ inv < 16
  /\ u8 (N.lxor (gfMult 9 mix) (gfMult 2 mix')) = x
  /\ u8 (N.lxor inv (gfMult 4 inv')) = x.
Proof. revert x y. by_cases_below 16%nat. Qed.

Ltac nibble_state_cases H :=
  let a := fresh "a" in let b := fresh "b" in
  let c := fresh "c" in let d := fresh "d" in
  apply nibble_state_inv in H as (a & b & c & d & -> & ? & ? & ? & ?).

(** The layers on a state written out. *)
Lemma addRoundKey_4 (a b c d a' b' c' d' : N) :
  addRoundKey [a; b; c; d] [a'; b'; c'; d']
  = [u8 (N.lxor a a'); u8 (N.lxor b b'); u8 (N.lxor c c'); u8 (N.lxor d d')].
Proof. reflexivity. Qed.

Lemma subNibbles_4 (sbox : list N) (a b c d : N) :
  subNibbles sbox [a; b; c; d] = [at_ sbox a; at_ sbox b; at_ sbox c; at_ sbox d].
Proof. reflexivity. Qed.

Lemma shiftRows_4 (a b c d : N) : shiftRows [a; b; c; d] = [a; b; d; c].
Proof. reflexivity. Qed.

Lemma mixColumns_4 (a b c d : N) :
  mixColumns [a; b; c; d]
  = [u8 (N.lxor a (gfMult 4 c)); u8 (N.lxor b (gfMult 4 d));
     u8 (N.lxor c (gfMult 4 a)); u8 (N.lxor d (gfMult 4 b))].
Proof. reflexivity. Qed.

Lemma inverseMixColumns_4 (a b c d : N) :
  inverseMixColumns [a; b; c; d]
  = [u8 (N.lxor (gfMult 9 a) (gfMult 2 c)); u8 (N.lxor (gfMult 9 b) (gfMult 2 d));
     u8 (N.lxor (gfMult 9 c) (gfMult 2 a)); u8 (N.lxor (gfMult 9 d) (gfMult 2 b))].
Proof. reflexivity. Qed.

Lemma xor_cancel_u8 (x y : N) :
  x < 16 -> y < 16 -> u8 (N.lxor x (u8 (N.lxor x y))) = y.
Proof. revert x y. by_cases_below 16%nat. Qed.

Lemma addRoundKey_nibbles (k s : list N) :
  nibble_state k -> nibble_state s -> nibble_state (addRoundKey k s).
Proof.
  intros Hk Hs. nibble_state_cases Hk. nibble_state_cases Hs.
  rewrite addRoundKey_4.
  apply nibble_state_intro;
    (edestruct xor_nibbles as (-> & ? & _); [| |eassumption]; assumption).
Qed.

Lemma addRoundKey_cancel (k s : list N) :
  nibble_state k -> nibble_state s -> addRoundKey k (addRoundKey k s) = s.
Proof.
  intros Hk Hs. nibble_state_cases Hk. nibble_state_cases Hs.
  rewrite !addRoundKey_4. repeat f_equal; by apply xor_cancel_u8.
Qed.

Lemma subNibbles_nibbles (s : list N) :
  nibble_state s ->
  nibble_state (subNibbles sBox s) /\ nibble_state (subNibbles sBoxI s).
Proof.
  intros Hs. nibble_state_cases Hs. rewrite !subNibbles_4.
  split; apply nibble_state_intro; by apply sBox_nibbles.
Qed.

Lemma shiftRows_nibbles (s : list N) :
  nibble_state s -> nibble_state (shiftRows s).
Proof.
  intros Hs. nibble_state_cases Hs. rewrite shiftRows_4.
  by apply nibble_state_intro.
Qed.

Lemma shiftRows_involutive (s : list N) :
  length s = 4%nat -> shiftRows (shiftRows s) = s.
Proof.
  intros Hlen. destruct s as [|a [|b [|c [|d [|]]]]]; try discriminate Hlen.
  reflexivity.
Qed.

(** The row operation and the substitution of the last encryption round
    are undone by the same row operation followed by the inverse
    substitution. *)
Lemma subNibbles_shiftRows_inverse (s : list N) :
  nibble_state s ->
  subNibbles sBoxI (shiftRows (shiftRows (subNibbles sBox s))) = s.
Proof.
  intros Hs. nibble_state_cases Hs.
  rewrite subNibbles_4, !shiftRows_4, subNibbles_4.
  repeat f_equal; by apply sBox_nibbles.
Qed.

Lemma mixColumns_nibbles (s : list N) :
  nibble_state s ->
  nibble_state (mixColumns s) /\ nibble_state (inverseMixColumns s).
Proof.
  intros Hs. nibble_state_cases Hs. rewrite mixColumns_4, inverseMixColumns_4.
  split; apply nibble_state_intro; by apply column_facts.
Qed.

Lemma inverseMixColumns_mixColumns (s : list N) :
  nibble_state s ->
  inverseMixColumns (mixColumns s) = s /\ mixColumns (inverseMixColumns s) = s.
Proof.
  intros Hs. nibble_state_cases Hs.
  repeat (rewrite mixColumns_4 || rewrite inverseMixColumns_4).
  split; repeat f_equal; by apply column_facts.
Qed.

(** C10. The row operation of cipher B is an involution on every state of
    four entries, states of four nibbles in particular; this is the
    inverse row operation that [Decrypt] needs, and [Decrypt] undoes the
    last encryption layer with it. *)
Theorem shiftRows_involution (s : list N) :
  nibble_state s ->
  shiftRows (shiftRows s) = s
  /\ subNibbles sBoxI (shiftRows (shiftRows (subNibbles sBox s))) = s.
Proof.
  intros Hs. split.
  - apply shiftRows_involutive, Hs.
  - by apply subNibbles_shiftRows_inverse.
Qed.

Lemma shiftRows_involution_witness :
  nibble_state [1; 2; 3; 4] /\ shiftRows (shiftRows [1; 2; 3; 4]) = [1; 2; 3; 4].
Proof.
  assert (H : nibble_state [1; 2; 3; 4]).
  { split; [reflexivity|]. repeat (constructor; [reflexivity|]). constructor. }
  split; [exact H|]. exact (proj1 (shiftRows_involution [1; 2; 3; 4] H)).
Defined.

(** C6, as the code has it.  The diffusion layer of encryption uses the
    constants 1 and 4: each output nibble is an input nibble plus four times
    another one in GF(2^4); it multiplies nothing by 9.  The inverse layer
    uses 9 and 2: each output nibble is nine times an input nibble plus
    twice another one.  The two layers are inverse of each other on every
    state of four nibbles. *)
Theorem mixColumns_constants (a b c d : N) :
  a < 16 -> b < 16 -> c < 16 -> d < 16 ->
  mixColumns [a; b; c; d]
  = [N.lxor a (gf16_mul 4 c); N.lxor b (gf16_mul 4 d);
     N.lxor c (gf16_mul 4 a); N.lxor d (gf16_mul 4 b)]
  /\ inverseMixColumns [a; b; c; d]
     = [N.lxor (gf16_mul 9 a) (gf16_mul 2 c); N.lxor (gf16_mul 9 b) (gf16_mul 2 d);
        N.lxor (gf16_mul 9 c) (gf16_mul 2 a); N.lxor (gf16_mul 9 d) (gf16_mul 2 b)]
  /\ inverseMixColumns (mixColumns [a; b; c; d]) = [a; b; c; d]
  /\ mixColumns (inverseMixColumns [a; b; c; d]) = [a; b; c; d].
Proof.
  intros Ha Hb Hc Hd.
  pose proof (nibble_state_intro a b c d Ha Hb Hc Hd) as Hs.
  split_and!.
  - rewrite mixColumns_4. repeat f_equal; by apply column_facts.
  - rewrite inverseMixColumns_4. repeat f_equal; by apply column_facts.
  - by apply inverseMixColumns_mixColumns.
  - by apply inverseMixColumns_mixColumns.
Qed.

Lemma mixColumns_constants_witness :
  1 < 16 /\ 0 < 16
  /\ inverseMixColumns (mixColumns [1; 0; 0; 0]) = [1; 0; 0; 0].
Proof.
  split_and!; [reflexivity | reflexivity |].
  exact (proj1 (proj2 (proj2 (mixColumns_constants 1 0 0 0
                                eq_refl eq_refl eq_refl eq_refl)))).
Defined.

(** C6, as stated, fails: on the state [1 0 0 0] the first output nibble of
    [mixColumns] is 1, which is not four times an input nibble plus nine
    times an input nibble, whichever two input nibbles are taken. *)
Lemma mixColumns_not_4_and_9 :
  nibble_state [1; 0; 0; 0]
  /\ mixColumns [1; 0; 0; 0] = [1; 0; 4; 0]
  /\ forall i j : N,
       at_ (mixColumns [1; 0; 0; 0]) 0
       <> N.lxor (gfMult 4 (at_ [1; 0; 0; 0] i)) (gfMult 9 (at_ [1; 0; 0; 0] j)).
Proof.
  split_and!.
  - by apply nibble_state_intro.
  - reflexivity.
  - assert (Hat : forall i, at_ [1; 0; 0; 0] i = 0 \/ at_ [1; 0; 0; 0] i = 1).
    { intros i. unfold at_.
      destruct (N.to_nat i) as [|[|[|[|[|]]]]]; cbn [nth]; auto. }
    intros i j.
    destruct (Hat i) as [-> | ->], (Hat j) as [-> | ->]; vm_compute; discriminate.
Qed.

(** *** The round trip *)

Lemma new_nibbles (key : N) :
  nibble_state (preRoundKey (new key))
  /\ nibble_state (round1Key (new key))
  /\ nibble_state (round2Key (new key)).
Proof. split_and!; apply intToState_nibbles. Qed.

Lemma engine_round_trip (self : SimplifiedAES) (plaintext : N) :
  nibble_state (preRoundKey self) ->
  nibble_state (round1Key self) ->
  nibble_state (round2Key self) ->
  plaintext < 65536 ->
  Decrypt self (Encrypt self plaintext) = plaintext.
Proof.
  intros H0 H1 H2 Hp. unfold Decrypt, Encrypt. cbv zeta.
  pose proof (intToState_nibbles plaintext) as Hi.
  set (s1 := addRoundKey (preRoundKey self) (intToState plaintext)).
  assert (Hs1 : nibble_state s1) by by apply addRoundKey_nibbles.
  set (m := shiftRows (subNibbles sBox s1)).
  assert (Hm : nibble_state m) by by apply shiftRows_nibbles, subNibbles_nibbles.
  set (s3 := addRoundKey (round1Key self) (mixColumns m)).
  assert (Hs3 : nibble_state s3) by by apply addRoundKey_nibbles, mixColumns_nibbles.
  set (s4 := shiftRows (subNibbles sBox s3)).
  assert (Hs4 : nibble_state s4) by by apply shiftRows_nibbles, subNibbles_nibbles.
  rewrite intToState_stateToInt by by apply addRoundKey_nibbles.
  rewrite addRoundKey_cancel by assumption.
  subst s4. rewrite subNibbles_shiftRows_inverse by assumption.
  subst s3. rewrite addRoundKey_cancel by by (try apply mixColumns_nibbles).
  rewrite (proj1 (inverseMixColumns_mixColumns m Hm)).
  subst m. rewrite subNibbles_shiftRows_inverse by assumption.
  subst s1. rewrite addRoundKey_cancel by assumption.
  by apply stateToInt_intToState.
Qed.

(** C2. Round trip of cipher B: for every key and plaintext of 16 bits,
    decrypting the encryption of the plaintext with the engine built from
    the key gives the plaintext back; in particular the self-check of the
    source, key [0x4AF5] and plaintext [0xD728], decrypts to [0xD728]. *)
Theorem Decrypt_Encrypt (key plaintext : N) :
  key < 65536 -> plaintext < 65536 ->
  Decrypt (new key) (Encrypt (new key) plaintext) = plaintext
  /\ Decrypt (new 0x4AF5) (Encrypt (new 0x4AF5) 0xD728) = 0xD728.
Proof.
  intros _ Hp.
  destruct (new_nibbles key) as (K0 & K1 & K2).
  destruct (new_nibbles 0x4AF5) as (T0 & T1 & T2).
  split; apply engine_round_trip; first [assumption | reflexivity].
Qed.

Lemma Decrypt_Encrypt_witness :
  0x4AF5 < 65536 /\ 0xD728 < 65536
  /\ Decrypt (new 0x4AF5) (Encrypt (new 0x4AF5) 0xD728) = 0xD728.
Proof.
  split_and!; [reflexivity | reflexivity |].
  exact (proj1 (Decrypt_Encrypt 0x4AF5 0xD728 eq_refl eq_refl)).
Defined.

(** The self-check of the source prints the ciphertext [0x24EC]. *)
Example Encrypt_test_vector : Encrypt (new 0x4AF5) 0xD728 = 0x24EC.
Proof. vm_compute. reflexivity. Qed.

(** *** The key expansion *)

Lemma byte_operations (w : N) :
  w < 256 ->
  rotWord w = rotateNibbles w /\ subWord w = substitute sBox w
  /\ rotWord w < 256 /\ subWord w < 256.
Proof. revert w. by_cases_below 256%nat. Qed.

Lemma lxor_bytes (x y : N) :
  x < 256 -> y < 256 -> N.lxor x y < 256 /\ u8 (N.lxor x y) = N.lxor x y.
Proof.
  intros Hx Hy.
  assert (Hlt : N.lxor x y < 256).
  { destruct (N.eq_dec (N.lxor x y) 0) as [-> | Hne]; [reflexivity|].
    apply (N.log2_lt_pow2 _ 8); [lia|].
    eapply N.le_lt_trans; [apply N.log2_lxor|].
    destruct (N.eq_dec x 0) as [-> | Hx0], (N.eq_dec y 0) as [-> | Hy0];
      cbn [N.log2 N.max]; try lia.
    - change (N.log2 0) with 0. rewrite N.max_0_l. by apply N.log2_lt_pow2; [lia|].
    - change (N.log2 0) with 0. rewrite N.max_0_r. by apply N.log2_lt_pow2; [lia|].
    - apply N.max_lub_lt; by apply N.log2_lt_pow2; [lia|]. }
  split; [exact Hlt | by apply N.mod_small].
Qed.

Lemma key_halves (key : N) :
  key < 65536 ->
  u8 (N.shiftr (N.land key 0xFF00) 8) = key / 256
  /\ u8 (N.land key 0x00FF) = key mod 256
  /\ key / 256 < 256 /\ key mod 256 < 256.
Proof.
  intros Hk.
  assert (Hhi : key / 256 < 256) by (apply N.Div0.div_lt_upper_bound; lia).
  assert (Hlo : key mod 256 < 256) by (apply N.mod_lt; lia).
  split_and!; try assumption.
  - change 0xFF00 with (N.shiftl (N.ones 8) 8).
    rewrite N.shiftr_land, N.shiftr_shiftl_l by lia.
    change (N.shiftl (N.ones 8) (8 - 8)) with (N.ones 8).
    rewrite N.land_ones, N.shiftr_div_pow2. change (2 ^ 8) with 256.
    unfold u8. rewrite (N.mod_small (key / 256) 256) by assumption.
    by apply N.mod_small.
  - change 0x00FF with (N.ones 8). rewrite N.land_ones. change (2 ^ 8) with 256.
    unfold u8. by rewrite N.Div0.mod_mod.
Qed.

Lemma concat_bytes (hi lo : N) :
  hi < 256 -> lo < 256 ->
  u16 (N.shiftl hi 8 + lo) = concat hi lo /\ concat hi lo < 65536.
Proof.
  intros Hhi Hlo. rewrite N.shiftl_mul_pow2. change (2 ^ 8) with 256.
  unfold concat, u16. split; [apply N.mod_small|]; lia.
Qed.

(** C4. Key expansion of cipher B: with [w0] the high byte and [w1] the low
    byte of the key, and [w2 .. w5] derived from them as the specification
    says, the three returned keys are the states of [w0 || w1], [w2 || w3]
    and [w4 || w5], in this order, and these states stand for these 16-bit
    numbers.  On bytes [rotWord] swaps the two nibbles and [subWord]
    substitutes each nibble through the S-box. *)
Theorem keyExpansion_words (key : N) :
  key < 65536 ->
  let w0 := key / 256 in
  let w1 := key mod 256 in
  let w2 := N.lxor w0 (N.lxor (substitute sBox (rotateNibbles w1)) 0x80) in
  let w3 := N.lxor w2 w1 in
  let w4 := N.lxor w2 (N.lxor (substitute sBox (rotateNibbles w3)) 0x30) in
  let w5 := N.lxor w4 w3 in
  keyExpansion key
  = (intToState (concat w0 w1), intToState (concat w2 w3), intToState (concat w4 w5))
  /\ stateToInt (intToState (concat w0 w1)) = key
  /\ stateToInt (intToState (concat w2 w3)) = concat w2 w3
  /\ stateToInt (intToState (concat w4 w5)) = concat w4 w5
  /\ (forall w, w < 256 ->
        rotWord w = rotateNibbles w /\ subWord w = substitute sBox w).
Proof.
  intros Hk w0 w1 w2 w3 w4 w5.
  destruct (key_halves key Hk) as (E0 & E1 & B0 & B1).
  assert (Hsr : forall w, w < 256 ->
            subWord (rotWord w) = substitute sBox (rotateNibbles w)
            /\ subWord (rotWord w) < 256).
  { intros w Hw. destruct (byte_operations w Hw) as (Hr & _ & Hrb & _).
    destruct (byte_operations (rotWord w) Hrb) as (_ & Hs & _ & Hsb).
    split; [by rewrite Hs, Hr | exact Hsb]. }
  destruct (Hsr w1 B1) as (S1 & SB1).
  destruct (lxor_bytes (subWord (rotWord w1)) 0x80 SB1 eq_refl) as (X1 & _).
  destruct (lxor_bytes w0 _ B0 X1) as (B2 & E2). rewrite S1 in B2, E2.
  destruct (lxor_bytes w2 w1 B2 B1) as (B3 & E3).
  destruct (Hsr w3 B3) as (S3 & SB3).
  destruct (lxor_bytes (subWord (rotWord w3)) 0x30 SB3 eq_refl) as (X3 & _).
  destruct (lxor_bytes w2 _ B2 X3) as (B4 & E4). rewrite S3 in B4, E4.
  destruct (lxor_bytes w4 w3 B4 B3) as (B5 & E5).
  destruct (concat_bytes w0 w1 B0 B1) as (C0 & CB0).
  destruct (concat_bytes w2 w3 B2 B3) as (C1 & CB1).
  destruct (concat_bytes w4 w5 B4 B5) as (C2 & CB2).
  split_and!.
  - unfold keyExpansion. cbv zeta.
    rewrite E0, E1. fold w0 w1. rewrite S1, E2. fold w2. rewrite E3. fold w3.
    rewrite S3, E4. fold w4. rewrite E5. fold w5.
    by rewrite C0, C1, C2.
  - rewrite stateToInt_intToState by assumption.
    unfold concat, w0, w1. pose proof (N.div_mod key 256). lia.
  - by apply stateToInt_intToState.
  - by apply stateToInt_intToState.
  - intros w Hw. split; by apply byte_operations.
Qed.

Lemma keyExpansion_words_witness :
  0x4AF5 < 65536
  /\ keyExpansion 0x4AF5
     = (intToState 0x4AF5, intToState 0xDD28, intToState 0x87AF).
Proof.
  split; [reflexivity|].
  exact (proj1 (keyExpansion_words 0x4AF5 eq_refl)).
Defined.

(** ** Further properties of S-AES *)

Lemma sBox_tables_cancel (x : N) :
  x < 16 ->
  at_ sBox x < 16 /\ at_ sBoxI x < 16
  /\ at_ sBoxI (at_ sBox x) = x /\ at_ sBox (at_ sBoxI x) = x.
Proof. revert x. by_cases_below 16%nat. Qed.

(** X12. The two S-box tables are permutations of the sixteen nibbles,
    inverse of each other. *)
Theorem sBox_tables_inverse (x : N) :
  x < 16 ->
  at_ sBox x < 16 /\ at_ sBoxI x < 16
  /\ at_ sBoxI (at_ sBox x) = x /\ at_ sBox (at_ sBoxI x) = x.
Proof. apply sBox_tables_cancel. Qed.

Lemma sBox_tables_inverse_witness :
  7 < 16 /\ at_ sBoxI (at_ sBox 7) = 7 /\ at_ sBox (at_ sBoxI 7) = 7.
Proof.
  split; [reflexivity|].
  exact (proj2 (proj2 (sBox_tables_inverse 7 eq_refl))).
Defined.

(** X13. A 16-bit number and the state of four nibbles that stands for it
    determine each other: [stateToInt] after [intToState] is the identity
    on 16-bit numbers, [intToState] after [stateToInt] is the identity on
    states of four nibbles, and [intToState] always gives such a state. *)
Theorem state_int_round_trip (n : N) (s : list N) :
  n < 65536 -> nibble_state s ->
  stateToInt (intToState n) = n
  /\ intToState (stateToInt s) = s
  /\ nibble_state (intToState n)
  /\ stateToInt s < 65536.
Proof.
  intros Hn Hs. split_and!.
  - by apply stateToInt_intToState.
  - by apply intToState_stateToInt.
  - apply intToState_nibbles.
  - unfold stateToInt, u16. apply N.mod_lt. discriminate.
Qed.

Lemma state_int_round_trip_witness :
  0xD728 < 65536 /\ stateToInt (intToState 0xD728) = 0xD728
  /\ intToState (stateToInt [0xD; 2; 7; 8]) = [0xD; 2; 7; 8].
Proof.
  assert (Hs : nibble_state [0xD; 2; 7; 8]).
  { split; [reflexivity|]. repeat (constructor; [reflexivity|]). constructor. }
  split; [reflexivity|].
  destruct (state_int_round_trip 0xD728 [0xD; 2; 7; 8] eq_refl Hs) as (H1 & H2 & _).
  exact (conj H1 H2).
Defined.

Lemma gfMult_laws (a b : N) :
  a < 16 -> b < 16 ->
  gfMult 1 a = a
  /\ (a <> 0 -> Exists (fun i => gfMult a i = 1) (N.of_nat <$> seq 0 16))
  /\ Forall (fun c =>
               gfMult a (gfMult b c) = gfMult (gfMult a b) c
               /\ gfMult a (N.lxor b c) = N.lxor (gfMult a b) (gfMult a c))
            (N.of_nat <$> seq 0 16).
Proof. revert a b. by_cases_below 16%nat. Qed.

(** X14. On nibbles [gfMult] has the laws of a field whose sum is the
    exclusive or: 1 is neutral, the product is associative and distributes
    over the sum, and every nibble other than 0 has an inverse. *)
Theorem gfMult_field (a b c : N) :
  a < 16 -> b < 16 -> c < 16 ->
  gfMult 1 a = a
  /\ gfMult a (gfMult b c) = gfMult (gfMult a b) c
  /\ gfMult a (N.lxor b c) = N.lxor (gfMult a b) (gfMult a c)
  /\ (a <> 0 -> exists i, i < 16 /\ gfMult a i = 1).
Proof.
  intros Ha Hb Hc. destruct (gfMult_laws a b Ha Hb) as (H1 & Hinv & Hall).
  rewrite Forall_forall in Hall.
  destruct (Hall c (below_elem 16 c Hc)) as (Hassoc & Hdistr).
  split_and!; try assumption.
  intros Hne. apply Exists_exists in Hinv as (i & Hi & Hone); [|assumption].
  exists i. split; [|assumption].
  apply list_elem_of_fmap in Hi as (k & -> & Hk). apply elem_of_seq in Hk. lia.
Qed.

Lemma gfMult_field_witness :
  2 < 16 /\ 3 < 16 /\ 9 < 16
  /\ gfMult 2 (N.lxor 3 9) = N.lxor (gfMult 2 3) (gfMult 2 9).
Proof.
  split_and!; [reflexivity..|].
  exact (proj1 (proj2 (proj2 (gfMult_field 2 3 9 eq_refl eq_refl eq_refl)))).
Defined.

(** X15. Adding a round key twice gives the state back, the two arguments
    of [addRoundKey] can be exchanged, and the sum of two states of four
    nibbles is a state of four nibbles. *)
Theorem addRoundKey_involution (k s : list N) :
  nibble_state k -> nibble_state s ->
  addRoundKey k (addRoundKey k s) = s
  /\ addRoundKey k s = addRoundKey s k
  /\ nibble_state (addRoundKey k s).
Proof.
  intros Hk Hs. split_and!.
  - by apply addRoundKey_cancel.
  - nibble_state_cases Hk. nibble_state_cases Hs. rewrite !addRoundKey_4.
    by rewrite (N.lxor_comm a), (N.lxor_comm b), (N.lxor_comm c), (N.lxor_comm d).
  - by apply addRoundKey_nibbles.
Qed.

Lemma addRoundKey_involution_witness :
  addRoundKey [4; 10; 15; 5] (addRoundKey [4; 10; 15; 5] [13; 2; 7; 8]) = [13; 2; 7; 8].
Proof.
  refine (proj1 (addRoundKey_involution [4; 10; 15; 5] [13; 2; 7; 8] _ _));
    (split; [reflexivity|]; repeat (constructor; [reflexivity|]); constructor).
Defined.

(** X16. The row operation and the substitution can be applied in either
    order, with any table: this is why [Decrypt] may shift the rows before
    it substitutes while [Encrypt] substitutes first. *)
Theorem shiftRows_subNibbles_commute (sbox s : list N) :
  length s = 4%nat ->
  subNibbles sbox (shiftRows s) = shiftRows (subNibbles sbox s).
Proof.
  intros Hlen. destruct s as [|a [|b [|c [|d [|]]]]]; try discriminate Hlen.
  reflexivity.
Qed.

Lemma shiftRows_subNibbles_commute_witness :
  subNibbles sBox (shiftRows [1; 2; 3; 4]) = shiftRows (subNibbles sBox [1; 2; 3; 4]).
Proof. exact (shiftRows_subNibbles_commute sBox [1; 2; 3; 4] eq_refl). Defined.

Lemma column_linear (x y : N) :
  x < 16 -> y < 16 ->
  Forall (fun x' => Forall (fun y' =>
    u8 (N.lxor (u8 (N.lxor x x')) (gfMult 4 (u8 (N.lxor y y'))))
    = u8 (N.lxor (u8 (N.lxor x (gfMult 4 y))) (u8 (N.lxor x' (gfMult 4 y'))))
    /\ u8 (N.lxor (gfMult 9 (u8 (N.lxor x x'))) (gfMult 2 (u8 (N.lxor y y'))))
       = u8 (N.lxor (u8 (N.lxor (gfMult 9 x) (gfMult 2 y)))
                    (u8 (N.lxor (gfMult 9 x') (gfMult 2 y')))))
    (N.of_nat <$> seq 0 16)) (N.of_nat <$> seq 0 16).
Proof. revert x y. by_cases_below 16%nat. Qed.

Lemma column_linear_at (x y x' y' : N) :
  x < 16 -> y < 16 -> x' < 16 -> y' < 16 ->
  u8 (N.lxor (u8 (N.lxor x x')) (gfMult 4 (u8 (N.lxor y y'))))
  = u8 (N.lxor (u8 (N.lxor x (gfMult 4 y))) (u8 (N.lxor x' (gfMult 4 y'))))
  /\ u8 (N.lxor (gfMult 9 (u8 (N.lxor x x'))) (gfMult 2 (u8 (N.lxor y y'))))
     = u8 (N.lxor (u8 (N.lxor (gfMult 9 x) (gfMult 2 y)))
                  (u8 (N.lxor (gfMult 9 x') (gfMult 2 y')))).
Proof.
  intros Hx Hy Hx' Hy'. pose proof (column_linear x y Hx Hy) as H.
  rewrite Forall_forall in H. specialize (H x' (below_elem 16 x' Hx')).
  rewrite Forall_forall in H. exact (H y' (below_elem 16 y' Hy')).
Qed.

(** X17. The diffusion layer and its inverse are linear: applied to the
    sum of two states they give the sum of what they give on each. *)
Theorem mixColumns_linear (s t : list N) :
  nibble_state s -> nibble_state t ->
  mixColumns (addRoundKey s t) = addRoundKey (mixColumns s) (mixColumns t)
  /\ inverseMixColumns (addRoundKey s t)
     = addRoundKey (inverseMixColumns s) (inverseMixColumns t).
Proof.
  intros Hs Ht. nibble_state_cases Hs. nibble_state_cases Ht.
  rewrite !addRoundKey_4, !mixColumns_4, !inverseMixColumns_4, !addRoundKey_4.
  split;
    (f_equal; [|f_equal; [|f_equal; [|f_equal]]]); by apply column_linear_at.
Qed.

Lemma mixColumns_linear_witness :
  mixColumns (addRoundKey [1; 2; 3; 4] [5; 6; 7; 8])
  = addRoundKey (mixColumns [1; 2; 3; 4]) (mixColumns [5; 6; 7; 8]).
Proof.
  refine (proj1 (mixColumns_linear [1; 2; 3; 4] [5; 6; 7; 8] _ _));
    (split; [reflexivity|]; repeat (constructor; [reflexivity|]); constructor).
Defined.

Lemma shiftRows_subNibbles_inverse (s : list N) :
  nibble_state s ->
  shiftRows (subNibbles sBox (subNibbles sBoxI (shiftRows s))) = s.
Proof.
  intros Hs. nibble_state_cases Hs.
  rewrite shiftRows_4, !subNibbles_4, shiftRows_4.
  repeat f_equal; by apply sBox_tables_cancel.
Qed.


(** X18. Cipher B the other way round: for every key and every 16-bit
    block, encrypting the decryption of the block gives the block back, so
    that [Encrypt] and [Decrypt] are two permutations of the 16-bit blocks,
    inverse of each other. *)
Theorem Encrypt_Decrypt (key ciphertext : N) :
  ciphertext < 65536 ->
  Encrypt (new key) (Decrypt (new key) ciphertext) = ciphertext
  /\ Decrypt (new key) ciphertext < 65536.
Proof.
  intros Hc. destruct (new_nibbles key) as (K0 & K1 & K2).
  split; [|unfold Decrypt, stateToInt, u16; apply N.mod_lt; discriminate].
  unfold Encrypt, Decrypt. cbv zeta.
  pose proof (intToState_nibbles ciphertext) as Hi.
  set (t1 := addRoundKey (round2Key (new key)) (intToState ciphertext)).
  assert (Ht1 : nibble_state t1) by by apply addRoundKey_nibbles.
  set (t2 := subNibbles sBoxI (shiftRows t1)).
  assert (Ht2 : nibble_state t2) by by apply subNibbles_nibbles, shiftRows_nibbles.
  set (t3 := inverseMixColumns (addRoundKey (round1Key (new key)) t2)).
  assert (Ht3 : nibble_state t3) by by apply mixColumns_nibbles, addRoundKey_nibbles.
  set (t4 := subNibbles sBoxI (shiftRows t3)).
  assert (Ht4 : nibble_state t4) by by apply subNibbles_nibbles, shiftRows_nibbles.
  rewrite intToState_stateToInt by by apply addRoundKey_nibbles.
  rewrite addRoundKey_cancel by assumption.
  subst t4. rewrite shiftRows_subNibbles_inverse by assumption.
  subst t3.
  rewrite (proj2 (inverseMixColumns_mixColumns _ (addRoundKey_nibbles _ _ K1 Ht2))).
  rewrite addRoundKey_cancel by assumption.
  subst t2. rewrite shiftRows_subNibbles_inverse by assumption.
  subst t1. rewrite addRoundKey_cancel by assumption.
  by apply stateToInt_intToState.
Qed.

Lemma Encrypt_Decrypt_witness :
  0x24EC < 65536 /\ Encrypt (new 0x4AF5) (Decrypt (new 0x4AF5) 0x24EC) = 0x24EC.
Proof.
  split; [reflexivity|]. exact (proj1 (Encrypt_Decrypt 0x4AF5 0x24EC eq_refl)).
Defined.

End SAES_properties.

(** * Properties of the modular exponentiation *)

Section DH_properties.

Import DH Spec.
Local Open Scope Z_scope.

(** One turn of the loop. *)
Lemma power_loop_unfold (result base exp modulus : Z) :
  power_loop result base exp modulus
  = if Z_lt_dec 0 exp
    then power_loop
           (if Z.rem exp 2 =? 1 then Z.rem (wrap (result * base)) modulus else result)
           (Z.rem (wrap (base * base)) modulus) (Z.shiftr exp 1) modulus
    else result.
Proof.
  rewrite power_loop_equation_1.
  destruct (Z_lt_dec 0 exp); reflexivity.
Qed.

Lemma wrap_in_range (x : Z) : LL_MIN <= x <= LL_MAX -> wrap x = x.
Proof.
  unfold wrap, LL_MIN, LL_MAX. intros H.
  rewrite Z.mod_small by lia. lia.
Qed.

Lemma product_in_range (x y modulus : Z) :
  modulus <= MAX_MODULUS -> 0 <= x < modulus -> 0 <= y < modulus ->
  LL_MIN <= x * y <= LL_MAX.
Proof.
  unfold MAX_MODULUS, LL_MIN, LL_MAX. intros Hm Hx Hy.
  assert (0 <= x * y) by (apply Z.mul_nonneg_nonneg; lia).
  assert (x * y <= 3037000499 * 3037000499)
    by (apply Z.mul_le_mono_nonneg; lia).
  lia.
Qed.

Lemma step_mod (x y modulus : Z) :
  0 < modulus <= MAX_MODULUS -> 0 <= x < modulus -> 0 <= y < modulus ->
  Z.rem (wrap (x * y)) modulus = (x * y) mod modulus.
Proof.
  intros Hm Hx Hy.
  rewrite wrap_in_range by (apply (product_in_range x y modulus); lia).
  apply Z.rem_mod_nonneg; [apply Z.mul_nonneg_nonneg|]; lia.
Qed.

Lemma power_loop_correct (exp : Z) :
  0 <= exp ->
  forall result base modulus : Z,
    0 < modulus <= MAX_MODULUS ->
    0 <= result < modulus -> 0 <= base < modulus ->
    power_loop result base exp modulus = (result * base ^ exp) mod modulus.
Proof.
  intros Hexp. generalize Hexp. pattern exp. apply Z_lt_induction; [|exact Hexp].
  clear exp Hexp. intros exp IH Hexp result base modulus Hm Hr Hb.
  rewrite power_loop_unfold.
  destruct (Z_lt_dec 0 exp) as [Hpos | Hzero].
  - rewrite Z.shiftr_div_pow2 by lia. change (2 ^ 1) with 2.
    assert (Hhalf : 0 <= exp / 2 < exp)
      by (split; [apply Z.div_pos | apply Z.div_lt]; lia).
    assert (Hsq : 0 <= (base * base) mod modulus < modulus)
      by (apply Z.mod_pos_bound; lia).
    rewrite (step_mod base base) by assumption.
    rewrite Z.rem_mod_nonneg by lia.
    pose proof (Z.div_mod exp 2 ltac:(lia)) as Hdm.
    pose proof (Z.mod_pos_bound exp 2 ltac:(lia)) as Hbit.
    assert (Hpow : ((base * base) mod modulus) ^ (exp / 2) mod modulus
                   = (base ^ (2 * (exp / 2))) mod modulus).
    { rewrite Z.mod_pow_l. by rewrite Z.pow_mul_r, Z.pow_2_r by lia. }
    destruct (exp mod 2 =? 1) eqn:Hodd.
    + apply Z.eqb_eq in Hodd.
      rewrite (step_mod result base) by assumption.
      rewrite IH; [|lia|lia|lia|apply Z.mod_pos_bound; lia|assumption].
      rewrite Z.mul_mod_idemp_l by lia.
      rewrite <- Z.mul_mod_idemp_r, Hpow, Z.mul_mod_idemp_r by lia.
      assert (Hsplit : base ^ exp = base ^ (2 * (exp / 2)) * base).
      { rewrite Hdm at 1. rewrite Hodd.
        by rewrite Z.pow_add_r, Z.pow_1_r by lia. }
      rewrite Hsplit. f_equal. ring.
    + apply Z.eqb_neq in Hodd.
      rewrite IH; [|lia|lia|lia|assumption|assumption].
      rewrite <- Z.mul_mod_idemp_r, Hpow, Z.mul_mod_idemp_r by lia.
      assert (Hsplit : base ^ exp = base ^ (2 * (exp / 2))).
      { rewrite Hdm at 1. replace (exp mod 2) with 0 by lia.
        by rewrite Z.add_0_r. }
      by rewrite Hsplit.
  - replace exp with 0 by lia. rewrite Z.pow_0_r, Z.mul_1_r.
    symmetry. apply Z.mod_small. lia.
Qed.

(** With modulus 1 the residues are all 0, and a loop that is entered
    returns 0. *)
Lemma power_loop_modulus_1 (exp : Z) :
  0 < exp ->
  forall result : Z, result = 0 \/ result = 1 -> power_loop result 0 exp 1 = 0.
Proof.
  intros Hexp. assert (H0 : 0 <= exp) by lia. revert Hexp.
  pattern exp. apply Z_lt_induction; [|exact H0].
  clear exp H0. intros exp IH Hexp result Hres.
  rewrite power_loop_unfold.
  destruct (Z_lt_dec 0 exp) as [_ | ?]; [|lia].
  rewrite Z.shiftr_div_pow2 by lia. change (2 ^ 1) with 2.
  change (Z.rem (wrap (0 * 0)) 1) with 0.
  rewrite Z.mul_0_r. change (Z.rem (wrap 0) 1) with 0.
  destruct (Z.eq_dec exp 1) as [-> | Hne].
  - reflexivity.
  - assert (0 < exp / 2 < exp)
      by (split; [apply Z.div_str_pos | apply Z.div_lt]; lia).
    apply IH; [lia | lia |]. destruct (Z.rem exp 2 =? 1); auto.
Qed.

(** C9, as the code has it.  For every base and exponent that are not
    negative and every modulus from 1 to 3037000500, the case of exponent 0
    with modulus 1 apart, [power] returns [base ^ exp mod modulus]: up to
    this modulus every product of two residues fits in a [long long]. *)
Theorem power_correct (base exp modulus : Z) :
  0 <= base -> 0 <= exp -> 1 <= modulus <= MAX_MODULUS ->
  (exp = 0 -> modulus <> 1) ->
  power base exp modulus = base ^ exp mod modulus.
Proof.
  intros Hb He Hm Hslip. unfold power. cbv zeta.
  rewrite Z.rem_mod_nonneg by lia.
  destruct (Z.eq_dec modulus 1) as [-> | Hne].
  - rewrite !Z.mod_1_r. apply power_loop_modulus_1; [|by right].
    destruct (Z.eq_dec exp 0) as [He0 | ?]; [by destruct (Hslip He0) | lia].
  - rewrite power_loop_correct
      by first [assumption | lia | apply Z.mod_pos_bound; lia].
    rewrite Z.mul_1_l. apply Z.mod_pow_l.
Qed.

Lemma power_correct_witness :
  0 <= 9 /\ 0 <= 4 /\ 1 <= 23 <= MAX_MODULUS /\ power 9 4 23 = 9 ^ 4 mod 23.
Proof.
  split; [lia|]. split; [lia|]. split; [unfold MAX_MODULUS; lia|].
  apply (power_correct 9 4 23); unfold MAX_MODULUS; lia.
Defined.

(** The run of the demo: the public keys and the shared secret. *)
Example power_demo :
  power 9 4 23 = 6 /\ power 9 3 23 = 16 /\ power 16 4 23 = 9 /\ power 6 3 23 = 9.
Proof. vm_compute. auto. Qed.

(** C9, as stated, fails.  With modulus 1 and exponent 0 the loop is not
    entered and [power] returns 1, while [base ^ 0 mod 1] is 0.  With the
    modulus [2^63 - 1] the square of [2^32] does not fit in a [long long]:
    [power] returns 0, while [(2^32)^2 mod (2^63 - 1)] is 2. *)
Lemma power_wrong_outside_range :
  (power 2 0 1 = 1 /\ 2 ^ 0 mod 1 = 0)
  /\ (power 4294967296 2 9223372036854775807 = 0
      /\ 4294967296 ^ 2 mod 9223372036854775807 = 2).
Proof. vm_compute. auto. Qed.

(** ** Further properties of the Diffie-Hellman demo *)

Lemma power_residue (base exp modulus : Z) :
  0 <= base -> 0 <= exp -> 2 <= modulus <= MAX_MODULUS ->
  power base exp modulus = base ^ exp mod modulus.
Proof.
  intros Hb He Hm. unfold power. cbv zeta.
  rewrite Z.rem_mod_nonneg by lia.
  rewrite power_loop_correct
    by first [assumption | lia | apply Z.mod_pos_bound; lia].
  rewrite Z.mul_1_l. apply Z.mod_pow_l.
Qed.

(** X19. The key exchange agrees: raising the other party's public key to
    one's own private key gives both parties the same secret,
    [G ^ (a * b) mod P], a residue modulo [P]. *)
Theorem shared_secret_agrees (G a b P : Z) :
  0 <= G -> 0 <= a -> 0 <= b -> 2 <= P <= MAX_MODULUS ->
  let x := power G a P in
  let y := power G b P in
  power y a P = power x b P
  /\ power y a P = G ^ (a * b) mod P
  /\ 0 <= power y a P < P.
Proof.
  intros HG Ha Hb HP x y. subst x y.
  rewrite (power_residue G a), (power_residue G b) by assumption.
  rewrite !power_residue by (try apply Z.mod_pos_bound; lia).
  rewrite !Z.mod_pow_l, <- !Z.pow_mul_r by lia.
  rewrite (Z.mul_comm b a).
  split; [reflexivity|]. split; [reflexivity|]. apply Z.mod_pos_bound. lia.
Qed.

Lemma shared_secret_agrees_witness :
  power (power 9 3 23) 4 23 = power (power 9 4 23) 3 23.
Proof.
  refine (proj1 (shared_secret_agrees 9 4 3 23 _ _ _ _));
    unfold MAX_MODULUS; lia.
Defined.



Lemma lxor_mod_256 (a b : Z) :
  Z.lxor a b mod 256 = Z.lxor (a mod 256) (b mod 256).
Proof.
  change 256 with (2 ^ 8). apply Z.bits_inj'. intros i Hi.
  rewrite Z.testbit_mod_pow2, !Z.lxor_spec, !Z.testbit_mod_pow2 by lia.
  by destruct (i <? 8).
Qed.

Lemma char_to_ll_mod (c : Ascii.ascii) :
  char_to_ll c mod 256 = Z.of_N (Ascii.N_of_ascii c).
Proof.
  unfold char_to_ll. cbv zeta.
  pose proof (Ascii.N_ascii_bounded c) as Hb.
  destruct (Z.of_N (Ascii.N_of_ascii c) <? 128) eqn:Hlt.
  - apply Z.mod_small. lia.
  - apply Z.ltb_ge in Hlt. symmetry.
    apply (Z.mod_unique _ _ (-1)); lia.
Qed.

Lemma char_of_ll_to_char (x : Z) :
  Z.of_N (Ascii.N_of_ascii (ll_to_char x)) = x mod 256.
Proof.
  unfold ll_to_char. pose proof (Z.mod_pos_bound x 256 ltac:(lia)) as Hb.
  rewrite Ascii.N_ascii_embedding by lia. lia.
Qed.

Lemma xor_char_twice (c : Ascii.ascii) (key : Z) :
  ll_to_char (Z.lxor (char_to_ll (ll_to_char (Z.lxor (char_to_ll c) key))) key) = c.
Proof.
  unfold ll_to_char at 1.
  rewrite lxor_mod_256, char_to_ll_mod, char_of_ll_to_char.
  rewrite lxor_mod_256, char_to_ll_mod, lxor_cancel.
  rewrite N2Z.id. apply Ascii.ascii_N_embedding.
Qed.

(** X21. Applying [encryptDecrypt] twice with the same key returns the
    original message, for every message and every key; the message keeps
    its length. *)
Theorem encryptDecrypt_involution (message : string) (key : Z) :
  encryptDecrypt (encryptDecrypt message key) key = message
  /\ String.length (encryptDecrypt message key) = String.length message.
Proof.
  induction message as [|c message [IH1 IH2]]; [by split|].
  cbn [encryptDecrypt String.length]. rewrite xor_char_twice, IH1, IH2. by split.
Qed.

End DH_properties.

(** * Properties of the greatest common divisor *)

Section RSA_properties.

Import RSA.
Local Open Scope Z_scope.

Lemma gcd_unfold (a h : Z) :
  gcd a h = if Z.eq_dec h 0 then a else gcd h (Z.rem a h).
Proof.
  rewrite gcd_equation_1. destruct (Z.eq_dec h 0); reflexivity.
Qed.

Lemma gcd_nonneg (n : nat) :
  forall a h : Z, (Z.to_nat h < n)%nat -> 0 <= a -> 0 <= h -> gcd a h = Z.gcd a h.
Proof.
  induction n as [|n IH]; intros a h Hn Ha Hh; [lia|].
  rewrite gcd_unfold. destruct (Z.eq_dec h 0) as [-> | Hne].
  - rewrite Z.gcd_0_r. lia.
  - pose proof (Z.rem_bound_pos a h Ha ltac:(lia)) as Hr.
    rewrite IH by lia.
    rewrite Z.gcd_comm, Z.gcd_rem by assumption. apply Z.gcd_comm.
Qed.

(** X22. For two numbers that are not negative, [gcd] returns their
    greatest common divisor; with 0 as second argument it returns the
    first. *)
Theorem gcd_correct (a h : Z) :
  0 <= a -> 0 <= h -> gcd a h = Z.gcd a h /\ gcd a 0 = a.
Proof.
  intros Ha Hh. split.
  - by apply (gcd_nonneg (S (Z.to_nat h))); [lia|..].
  - by rewrite gcd_unfold.
Qed.

Lemma gcd_correct_witness : gcd 12 18 = Z.gcd 12 18.
Proof. refine (proj1 (gcd_correct 12 18 _ _)); lia. Defined.

End RSA_properties.

(** * Properties of the enumeration of the points of a curve *)

Section ECC_properties.

Import ECC Spec.
Local Open Scope Z_scope.

Lemma wrap_product (u v : Z) :
  0 <= u < 2 ^ 31 -> 0 <= v < 2 ^ 31 -> DH.wrap (u * v) = u * v /\ 0 <= u * v.
Proof.
  intros Hu Hv.
  assert (0 <= u * v) by (apply Z.mul_nonneg_nonneg; lia).
  assert (u * v <= (2 ^ 31 - 1) * (2 ^ 31 - 1)) by (apply Z.mul_le_mono_nonneg; lia).
  split; [|assumption].
  unfold DH.wrap. rewrite Z.mod_small by lia. lia.
Qed.

Lemma wrap_small (u : Z) : 0 <= u < 2 ^ 33 -> DH.wrap u = u.
Proof. intros Hu. unfold DH.wrap. rewrite Z.mod_small by lia. lia. Qed.

Lemma wrap32_small (u : Z) : 0 <= u < 2 ^ 31 -> SDES.wrap32 u = u.
Proof. intros Hu. unfold SDES.wrap32. rewrite Z.mod_small by lia. lia. Qed.

Lemma rem_product (u v p : Z) :
  0 <= u < 2 ^ 31 -> 0 <= v < 2 ^ 31 -> 0 < p < 2 ^ 31 ->
  Z.rem (DH.wrap (u * v)) p = (u * v) mod p /\ 0 <= (u * v) mod p < 2 ^ 31.
Proof.
  intros Hu Hv Hp. destruct (wrap_product u v Hu Hv) as [-> Hpos].
  pose proof (Z.mod_pos_bound (u * v) p ltac:(lia)).
  split; [by apply Z.rem_mod_nonneg; lia | lia].
Qed.

Lemma isPoint_equation (px py a b p : Z) :
  nonneg_int px -> nonneg_int py -> nonneg_int a -> nonneg_int b ->
  0 < p < 2 ^ 31 ->
  isPoint (mkPoint px py) a b p
  = bool_decide ((py * py) mod p = (px * px * px + a * px + b) mod p).
Proof.
  unfold nonneg_int. intros Hx Hy Ha Hb Hp.
  unfold isPoint. cbn [x y]. cbv zeta. rewrite !Z.mul_1_l.
  rewrite !(wrap_small px), !(wrap_small py), !(wrap_small a) by lia.
  destruct (rem_product py py p Hy Hy Hp) as [-> Hyy].
  destruct (rem_product px px p Hx Hx Hp) as [-> Hxx].
  destruct (rem_product _ px p Hxx Hx Hp) as [-> Hxxx].
  destruct (rem_product a px p Ha Hx Hp) as [-> Hax].
  rewrite (wrap_small (_ mod p + _ mod p)) by lia.
  rewrite (wrap_small (_ mod p + _ mod p + b)) by lia.
  rewrite Z.rem_mod_nonneg by lia.
  pose proof (Z.mod_pos_bound (py * py) p ltac:(lia)).
  pose proof (Z.mod_pos_bound (((px * px) mod p * px) mod p + (a * px) mod p + b) p
                ltac:(lia)).
  rewrite !wrap32_small by lia.
  assert (Hcurve : (((px * px) mod p * px) mod p + (a * px) mod p + b) mod p
                   = (px * px * px + a * px + b) mod p).
  { rewrite Z.mul_mod_idemp_l by lia.
    rewrite <- Z.add_mod_idemp_l, <- Z.add_mod, Z.add_mod_idemp_l by lia.
    reflexivity. }
  rewrite Hcurve.
  case_bool_decide as Heq; [apply Z.eqb_eq | apply Z.eqb_neq]; congruence.
Qed.

Lemma isPoint_equation_pow (px py a b p : Z) :
  nonneg_int px -> nonneg_int py -> nonneg_int a -> nonneg_int b ->
  0 < p < 2 ^ 31 ->
  isPoint (mkPoint px py) a b p = true
  <-> (py ^ 2) mod p = (px ^ 3 + a * px + b) mod p.
Proof.
  intros Hx Hy Ha Hb Hp. rewrite isPoint_equation by assumption.
  rewrite bool_decide_eq_true.
  replace (py ^ 2) with (py * py) by ring.
  replace (px ^ 3) with (px * px * px) by ring. reflexivity.
Qed.

(** X23. For coordinates and coefficients that are not negative and a
    positive modulus, [isPoint] tells whether the point satisfies
    [y^2 = x^3 + a x + b] modulo [p]. *)
Theorem isPoint_correct (px py a b p : Z) :
  nonneg_int px -> nonneg_int py -> nonneg_int a -> nonneg_int b ->
  0 < p < 2 ^ 31 ->
  isPoint (mkPoint px py) a b p = true
  <-> (py ^ 2) mod p = (px ^ 3 + a * px + b) mod p.
Proof.
  intros Hx Hy Ha Hb Hp. by apply isPoint_equation_pow.
Qed.

Lemma isPoint_correct_witness :
  isPoint (mkPoint 2 5) 1 1 7 = true <-> (5 ^ 2) mod 7 = (2 ^ 3 + 1 * 2 + 1) mod 7.
Proof. apply (isPoint_correct 2 5 1 1 7); unfold nonneg_int; lia. Defined.

(** X24. With a negative coefficient [isPoint] can miss a point of the
    curve: the remainder of C++ has the sign of the dividend, so the right
    side may be negative while the left side never is.  Whenever the sum
    computed for the right side is negative, the answer is no. *)
Theorem isPoint_negative_side (px py a b p : Z) :
  nonneg_int px -> nonneg_int py -> 0 < p < 2 ^ 31 ->
  - 2 ^ 31 <= a < 0 -> nonneg_int b ->
  ((px * px) mod p * px) mod p + Z.rem (a * px) p + b < 0 ->
  ~ Z.divide p (((px * px) mod p * px) mod p + Z.rem (a * px) p + b) ->
  isPoint (mkPoint px py) a b p = false.
Proof.
  unfold nonneg_int. intros Hx Hy Hp Ha Hb Hneg Hdiv.
  unfold isPoint. cbn [x y]. cbv zeta. rewrite !Z.mul_1_l.
  assert (Hwa : DH.wrap a = a)
    by (unfold DH.wrap; rewrite Z.mod_small by lia; lia).
  rewrite !(wrap_small px), !(wrap_small py), Hwa by lia.
  destruct (rem_product py py p Hy Hy Hp) as [-> Hyy].
  destruct (rem_product px px p Hx Hx Hp) as [-> Hxx].
  destruct (rem_product _ px p Hxx Hx Hp) as [-> Hxxx].
  assert (Hax : - 2 ^ 62 <= a * px <= 0).
  { assert (a * px <= 0) by (apply Z.mul_nonpos_nonneg; lia).
    assert (- a * px <= 2 ^ 31 * 2 ^ 31) by (apply Z.mul_le_mono_nonneg; lia).
    lia. }
  assert (Hwax : DH.wrap (a * px) = a * px)
    by (unfold DH.wrap; rewrite Z.mod_small by lia; lia).
  rewrite Hwax.
  pose proof (Z.rem_bound_abs (a * px) p ltac:(lia)) as Hr.
  set (sum := ((px * px) mod p * px) mod p + Z.rem (a * px) p + b) in *.
  assert (Hw1 : DH.wrap (((px * px) mod p * px) mod p + Z.rem (a * px) p)
                = ((px * px) mod p * px) mod p + Z.rem (a * px) p)
    by (unfold DH.wrap; rewrite Z.mod_small by lia; lia).
  rewrite Hw1.
  assert (Hw2 : DH.wrap sum = sum)
    by (unfold DH.wrap, sum; rewrite Z.mod_small by lia; lia).
  fold sum. rewrite Hw2.
  pose proof (Z.rem_nonpos sum p ltac:(lia) (Z.lt_le_incl _ _ Hneg)) as Hs.
  pose proof (Z.rem_bound_abs sum p ltac:(lia)) as Hs'.
  assert (Z.rem sum p <> 0).
  { intros H0. apply Hdiv. apply Z.rem_divide; [lia | assumption]. }
  assert (Hw3 : SDES.wrap32 (Z.rem sum p) = Z.rem sum p)
    by (unfold SDES.wrap32; rewrite Z.mod_small by lia; lia).
  rewrite Hw3, wrap32_small by lia.
  apply Z.eqb_neq. lia.
Qed.

Lemma isPoint_negative_side_witness :
  isPoint (mkPoint 1 2) (-4) 0 7 = false /\ (2 ^ 2) mod 7 = (1 ^ 3 + -4 * 1 + 0) mod 7.
Proof.
  split; [|reflexivity].
  apply (isPoint_negative_side 1 2 (-4) 0 7); unfold nonneg_int; try lia.
  - reflexivity.
  - change (((1 * 1) mod 7 * 1) mod 7 + Z.rem (-4 * 1) 7 + 0) with (-3).
    intros [k Hk]. lia.
Defined.

(** X25. The pairs that [allPoints] writes are exactly the points of the
    curve with both coordinates from 0 to [p - 1]; for a modulus that is
    not positive it writes nothing. *)
Theorem allPoints_complete (p a b i j : Z) :
  nonneg_int a -> nonneg_int b -> p < 2 ^ 31 ->
  (i, j) ∈ allPoints p a b
  <-> 0 <= i < p /\ 0 <= j < p /\ (j ^ 2) mod p = (i ^ 3 + a * i + b) mod p.
Proof.
  intros Ha Hb Hp. unfold allPoints.
  assert (Hrange : forall v, v ∈ (Z.of_nat <$> seq 0 (Z.to_nat p)) <-> 0 <= v < p).
  { intros v. rewrite list_elem_of_fmap. split.
    - intros (k & -> & Hk). apply elem_of_seq in Hk. lia.
    - intros Hv. exists (Z.to_nat v). split; [lia | apply elem_of_seq; lia]. }
  rewrite list_elem_of_bind. split.
  - intros (i' & Hin & Hi'). apply list_elem_of_bind in Hin as (j' & Hin & Hj').
    apply Hrange in Hi', Hj'.
    destruct (isPoint (mkPoint i' j') a b p) eqn:Hpt; [|by apply elem_of_nil in Hin].
    apply list_elem_of_singleton in Hin. injection Hin as -> ->.
    split_and!; try lia.
    apply isPoint_equation_pow; unfold nonneg_int; try assumption; lia.
  - intros (Hi & Hj & Heq). exists i. split; [|by apply Hrange].
    apply list_elem_of_bind. exists j. split; [|by apply Hrange].
    assert (Hpt : isPoint (mkPoint i j) a b p = true)
      by (apply isPoint_equation_pow; unfold nonneg_int; try assumption; lia).
    rewrite Hpt. by apply list_elem_of_singleton.
Qed.

Lemma allPoints_complete_witness :
  (2, 5) ∈ allPoints 7 1 1
  <-> 0 <= 2 < 7 /\ 0 <= 5 < 7 /\ (5 ^ 2) mod 7 = (2 ^ 3 + 1 * 2 + 1) mod 7.
Proof. apply (allPoints_complete 7 1 1 2 5); unfold nonneg_int; lia. Defined.

End ECC_properties.
